(** * Organization teams, memberships and role resolution

    A shallow embedding of the team sub-model of the organization model
    (src/models/organization/organization.team.submodel.ts) over a model of
    the two document collections it works on, [Organization] and [User],
    together with the parts of the organization model that the team
    sub-model calls into or that are specified next to it (role assignment,
    authorization resolution, organization create and update).

    Collections are finite maps from [_id] to documents; array fields are
    lists, because the update operators used by the code ([$addToSet],
    [$pull], the positional [$] and the filtered positional [$[t]]) are
    defined on arrays with order and duplicates.  Every operation is a
    computation in a state-and-error monad over the store: a thrown
    [ResponseError] keeps the writes that were made before it. *)

From stdpp Require Import gmap strings list fin_maps.
From Stdlib Require Import NArith.

Local Open Scope string_scope.
Local Open Scope list_scope.

(** ** Values *)

(** A 12-byte [ObjectId] is modelled by a natural number. *)
Abbreviation ObjectId := N.

(** Instants ([Date]) are milliseconds since the epoch. *)
Abbreviation Timestamp := N.

(** The JavaScript values that can be bound to a field of a partial input
    object.  An object value (an [ObjectId], a [Date]) is represented by
    what its [toString()] yields, which is all the [String] caster sees. *)
Inductive JsValue : Type :=
  | JUndefined
  | JNull
  | JBool (b : bool)
  | JString (s : string)
  | JObject (toString : string).

#[global] Instance JsValue_eq_dec : EqDecision JsValue.
Proof. solve_decision. Defined.

(** [if (v)]: JavaScript truthiness. *)
Definition truthy (v : JsValue) : bool :=
  match v with
  | JUndefined | JNull => false
  | JBool b => b
  | JString s => negb (String.eqb s "")
  | JObject _ => true
  end.

(** [obj[key]] on a plain object: a missing key reads as [undefined]. *)
Definition jsGet (obj : gmap string JsValue) (key : string) : JsValue :=
  default JUndefined (obj !! key).

(** The schema type [String]: [null] and [undefined] stay unset, anything
    else is cast through [toString()]. *)
Definition castString (v : JsValue) : option string :=
  match v with
  | JUndefined | JNull => None
  | JBool b => Some (if b then "true" else "false")
  | JString s => Some s
  | JObject s => Some s
  end.

(** ** Role catalog *)

(** Modelled from the spec: the role tokens of
    organization-models-access-control ([ORGANIZATION_ROLES], [TEAM_ROLES]
    and the project-group roles), of which the sources only show the uses
    [ORGANIZATION_ROLES.ORG_ADMIN], [TEAM_ROLES.TEAM_ADMIN] and the token
    strings the tests expect. *)
Inductive RoleToken : Type :=
  | ORG_FULL_ADMIN
  | ORG_ADMIN
  | TEAM_ADMIN
  | PROJECT_GROUP_ADMIN.

#[global] Instance RoleToken_eq_dec : EqDecision RoleToken.
Proof. solve_decision. Defined.

Definition roleName (r : RoleToken) : string :=
  match r with
  | ORG_FULL_ADMIN => "ORG_FULL_ADMIN"
  | ORG_ADMIN => "ORG_ADMIN"
  | TEAM_ADMIN => "TEAM_ADMIN"
  | PROJECT_GROUP_ADMIN => "PROJECT_GROUP_ADMIN"
  end.

Definition ORGANIZATION_ROLES : list RoleToken := [ORG_FULL_ADMIN; ORG_ADMIN].
Definition TEAM_ROLES : list RoleToken := [TEAM_ADMIN].

(** [ORGANIZATION_NESTED_ENTITY_FIELDS]: the sub-collections of an
    organization that carry an access-control list of their own. *)
Inductive NestedEntityField : Type :=
  | NestedTeams
  | NestedProjectGroups.

(** ** Documents *)

(** An access-control entry.  The subject is written [userId] as in the
    stored documents; it is the spec's [subjectId]. *)
Record ACE : Type := mkACE {
  userId : ObjectId;
  role : RoleToken
}.

#[global] Instance ACE_eq_dec : EqDecision ACE.
Proof. solve_decision. Defined.

Record ITeamDoc : Type := mkTeam {
  team_id : ObjectId;
  team_name : string;
  team_logoPath : option string;
  team_accessControlList : list ACE
}.

#[global] Instance ITeamDoc_eq_dec : EqDecision ITeamDoc.
Proof. solve_decision. Defined.

Record IProjectGroupDoc : Type := mkProjectGroup {
  projectGroup_id : ObjectId;
  projectGroup_name : string;
  projectGroup_accessControlList : list ACE
}.

(** The fields of an organization ([IOrganization], with the lists that the
    sub-models and the role-assignment plugin add). *)
Record IOrganization : Type := mkOrganization {
  org_name : string;
  createdAt : Timestamp;
  updatedAt : Timestamp;
  accessControlList : list ACE;
  teams : list ITeamDoc;
  projectGroups : list IProjectGroupDoc
}.

(** A document of the collection: the fields under their [_id]. *)
Record IOrganizationDoc : Type := mkOrganizationDoc {
  org_id : ObjectId;
  org_fields :> IOrganization
}.

(** One element of [organizationMemberships] on a user; its array of team
    ids is the path [organizationMemberships.$[t].teams] of the updates. *)
Record IOrganizationMembership : Type := mkMembership {
  organizationId : ObjectId;
  membership_teams : list ObjectId
}.

Record IUser : Type := mkUser {
  displayName : string;
  email : string;
  organizationMemberships : list IOrganizationMembership
}.

Record IUserDoc : Type := mkUserDoc {
  user_id : ObjectId;
  user_fields :> IUser
}.

(** ** The store and the monad of operations *)

Record Store : Type := mkStore {
  Organization : gmap N IOrganization;
  User : gmap N IUser;
  (** the next value of [mongoose.Types.ObjectId()] *)
  nextObjectId : ObjectId;
  (** the clock read by the schema's timestamps *)
  now : Timestamp
}.

Inductive ResponseError : Type :=
  | NotFound
  | ValidationError
  | DuplicateKey.

#[global] Instance ResponseError_eq_dec : EqDecision ResponseError.
Proof. solve_decision. Defined.

Inductive Result (A : Type) : Type :=
  | Ok (a : A)
  | Throw (e : ResponseError).
Arguments Ok {A} a.
Arguments Throw {A} e.

Definition M (A : Type) : Type := Store → Store * Result A.

#[global] Instance M_ret : MRet M := λ A a s, (s, Ok a).

#[global] Instance M_bind : MBind M := λ A B f m s,
  match m s with
  | (s', Ok a) => f a s'
  | (s', Throw e) => (s', Throw e)
  end.

Definition throw {A : Type} (e : ResponseError) : M A := λ s, (s, Throw e).

Definition setOrganization (orgs : gmap N IOrganization) (s : Store) : Store :=
  {| Organization := orgs; User := User s;
     nextObjectId := nextObjectId s; now := now s |}.

Definition setUser (users : gmap N IUser) (s : Store) : Store :=
  {| Organization := Organization s; User := users;
     nextObjectId := nextObjectId s; now := now s |}.

(** [mongoose.Types.ObjectId()] *)
Definition newObjectId : M ObjectId := λ s,
  ({| Organization := Organization s; User := User s;
      nextObjectId := N.succ (nextObjectId s); now := now s |},
   Ok (nextObjectId s)).

(** ** Array update operators *)

(** [$addToSet]: append unless an equal element is already there. *)
Definition addToSet {A : Type} `{EqDecision A} (x : A) (l : list A) : list A :=
  if decide (x ∈ l) then l else l ++ [x].

(** [$pull]: drop every element that matches. *)
Definition pull {A : Type} (P : A → Prop) `{∀ x, Decision (P x)}
    (l : list A) : list A :=
  filter (λ x, ¬ P x) l.

(** The positional operator [$]: update the first element that matches the
    query condition on the array. *)
Fixpoint positional {A : Type} (P : A → Prop) `{∀ x, Decision (P x)}
    (f : A → A) (l : list A) : list A :=
  match l with
  | [] => []
  | x :: l' => if decide (P x) then f x :: l' else x :: positional P f l'
  end.

(** The filtered positional operator [$[t]] with [arrayFilters]: update
    every element that matches the filter. *)
Definition filteredPositional {A : Type} (P : A → Prop) `{∀ x, Decision (P x)}
    (f : A → A) (l : list A) : list A :=
  (λ x, if decide (P x) then f x else x) <$> l.

(** ** Queries on the two collections *)

Definition withTeams (f : list ITeamDoc → list ITeamDoc)
    (o : IOrganization) : IOrganization :=
  {| org_name := org_name o; createdAt := createdAt o;
     updatedAt := updatedAt o; accessControlList := accessControlList o;
     teams := f (teams o); projectGroups := projectGroups o |}.

Definition withProjectGroups (f : list IProjectGroupDoc → list IProjectGroupDoc)
    (o : IOrganization) : IOrganization :=
  {| org_name := org_name o; createdAt := createdAt o;
     updatedAt := updatedAt o; accessControlList := accessControlList o;
     teams := teams o; projectGroups := f (projectGroups o) |}.

Definition withAccessControlList (f : list ACE → list ACE)
    (o : IOrganization) : IOrganization :=
  {| org_name := org_name o; createdAt := createdAt o;
     updatedAt := updatedAt o; accessControlList := f (accessControlList o);
     teams := teams o; projectGroups := projectGroups o |}.

Definition withName (n : string) (o : IOrganization) : IOrganization :=
  {| org_name := n; createdAt := createdAt o;
     updatedAt := updatedAt o; accessControlList := accessControlList o;
     teams := teams o; projectGroups := projectGroups o |}.

(** The schema's [timestamps]: every update of an organization document
    stamps [updatedAt]. *)
Definition touch (t : Timestamp) (o : IOrganization) : IOrganization :=
  {| org_name := org_name o; createdAt := createdAt o;
     updatedAt := t; accessControlList := accessControlList o;
     teams := teams o; projectGroups := projectGroups o |}.

Definition withMemberships
    (f : list IOrganizationMembership → list IOrganizationMembership)
    (u : IUser) : IUser :=
  {| displayName := displayName u; email := email u;
     organizationMemberships := f (organizationMemberships u) |}.

Definition withMembershipTeams (f : list ObjectId → list ObjectId)
    (m : IOrganizationMembership) : IOrganizationMembership :=
  {| organizationId := organizationId m;
     membership_teams := f (membership_teams m) |}.

(** [Organization.findOne({ _id: id })] *)
Definition Organization_findOne (id : ObjectId) : M (option IOrganizationDoc) :=
  λ s, (s, Ok (mkOrganizationDoc id <$> Organization s !! id)).

(** [Organization.findOneAndUpdate({ _id: id, ...cond }, update, { new })]:
    the document with this [_id], if it also satisfies [cond], is replaced
    by its update; the result is the document after ([new: true]) or before
    the update, or [null] when nothing matched. *)
Definition Organization_findOneAndUpdate (id : ObjectId)
    (cond : IOrganization → Prop) `{∀ o, Decision (cond o)}
    (update : IOrganization → IOrganization) (new : bool)
    : M (option IOrganizationDoc) :=
  λ s,
    match Organization s !! id with
    | Some o =>
        if decide (cond o) then
          let o' := touch (now s) (update o) in
          (setOrganization (<[id := o']> (Organization s)) s,
           Ok (Some (mkOrganizationDoc id (if new then o' else o))))
        else (s, Ok None)
    | None => (s, Ok None)
    end.

(** [User.findOneAndUpdate({ _id: userId, ...cond }, update)]: as above,
    on the user collection; the result is the document before the update. *)
Definition User_findOneAndUpdate (userId : ObjectId)
    (cond : IUser → Prop) `{∀ u, Decision (cond u)}
    (update : IUser → IUser) : M (option IUserDoc) :=
  λ s,
    match User s !! userId with
    | Some u =>
        if decide (cond u) then
          (setUser (<[userId := update u]> (User s)) s,
           Ok (Some (mkUserDoc userId u)))
        else (s, Ok None)
    | None => (s, Ok None)
    end.

(** [User.updateMany(cond, update)] *)
Definition User_updateMany
    (cond : IUser → Prop) `{∀ u, Decision (cond u)}
    (update : IUser → IUser) : M unit :=
  λ s,
    (setUser ((λ u, if decide (cond u) then update u else u) <$> User s) s,
     Ok ()).

(** The query condition ['teams._id': teamId]. *)
Definition hasTeam (teamId : ObjectId) (o : IOrganization) : Prop :=
  teamId ∈ team_id <$> teams o.

#[global] Instance hasTeam_dec teamId o : Decision (hasTeam teamId o).
Proof. unfold hasTeam; apply _. Defined.

(** The query condition ['organizationMemberships.organizationId': id]. *)
Definition hasMembership (id : ObjectId) (u : IUser) : Prop :=
  id ∈ organizationId <$> organizationMemberships u.

#[global] Instance hasMembership_dec id u : Decision (hasMembership id u).
Proof. unfold hasMembership; apply _. Defined.

(** ** Role assignment *)

(** Modelled from the spec: the role-assignment plugin
    (plugins/role-assignment) is not among the sources; what follows is
    the nested-entity role assignment of the specification.  [setRole]
    upserts one entry for the subject (an entry the subject already has is
    replaced), as one conditional update keyed by the organization id and,
    for a nested entity, by its id; matching nothing is [NotFound]. *)
Definition upsertACE (subjectId : ObjectId) (r : RoleToken)
    (acl : list ACE) : list ACE :=
  filter (λ a, userId a ≠ subjectId) acl ++ [mkACE subjectId r].

(** Modelled from the spec: [removeRole] drops any entry of the subject. *)
Definition removeACE (subjectId : ObjectId) (acl : list ACE) : list ACE :=
  pull (λ a, userId a = subjectId) acl.

(** Modelled from the spec: a team document with its list rewritten. *)
Definition withTeamACL (f : list ACE → list ACE) (t : ITeamDoc) : ITeamDoc :=
  {| team_id := team_id t; team_name := team_name t;
     team_logoPath := team_logoPath t;
     team_accessControlList := f (team_accessControlList t) |}.

(** Modelled from the spec: a project-group document with its list
    rewritten. *)
Definition withProjectGroupACL (f : list ACE → list ACE)
    (g : IProjectGroupDoc) : IProjectGroupDoc :=
  {| projectGroup_id := projectGroup_id g;
     projectGroup_name := projectGroup_name g;
     projectGroup_accessControlList := f (projectGroup_accessControlList g) |}.

(** Modelled from the spec: the entity that a path
    [(organizationId, nestedField?, nestedEntityId?)] addresses exists in
    this organization document. *)
Definition pathMatches (path : option (NestedEntityField * ObjectId))
    (o : IOrganization) : Prop :=
  match path with
  | None => True
  | Some (NestedTeams, entityId) => entityId ∈ team_id <$> teams o
  | Some (NestedProjectGroups, entityId) =>
      entityId ∈ projectGroup_id <$> projectGroups o
  end.

#[global] Instance pathMatches_dec path o : Decision (pathMatches path o).
Proof. destruct path as [[[] ?]|]; simpl; apply _. Defined.

(** Modelled from the spec: the update that rewrites the access-control
    list of the addressed entity, the first one with this id. *)
Definition onACL (path : option (NestedEntityField * ObjectId))
    (f : list ACE → list ACE) (o : IOrganization) : IOrganization :=
  match path with
  | None => withAccessControlList f o
  | Some (NestedTeams, entityId) =>
      withTeams (positional (λ t, team_id t = entityId) (withTeamACL f)) o
  | Some (NestedProjectGroups, entityId) =>
      withProjectGroups
        (positional (λ g, projectGroup_id g = entityId) (withProjectGroupACL f)) o
  end.

(** Modelled from the spec: [setRole(path, role, subjectId)]. *)
Definition setRole (id : ObjectId) (path : option (NestedEntityField * ObjectId))
    (r : RoleToken) (subjectId : ObjectId) : M IOrganizationDoc :=
  updated ← Organization_findOneAndUpdate id (pathMatches path)
              (onACL path (upsertACE subjectId r)) true;
  match updated with
  | Some o => mret o
  | None => throw NotFound
  end.

(** Modelled from the spec: [removeRole(path, subjectId)], a no-op when
    there is nothing to remove. *)
Definition removeRole (id : ObjectId) (path : option (NestedEntityField * ObjectId))
    (subjectId : ObjectId) : M unit :=
  _ ← Organization_findOneAndUpdate id (pathMatches path)
        (onACL path (removeACE subjectId)) true;
  mret ().

(** Modelled from the spec: [grantOnCreate(path, subjectId, adminRole)]
    seeds the list of a new entity with the creator's entry. *)
Definition grantOnCreate (id : ObjectId)
    (path : option (NestedEntityField * ObjectId))
    (subjectId : ObjectId) (adminRole : RoleToken) : M IOrganizationDoc :=
  setRole id path adminRole subjectId.

(** Modelled from the spec: [Organization.setNestedUserRole], the call of
    [createTeam] into the role-assignment plugin. *)
Definition setNestedUserRole (id : ObjectId) (nestedField : NestedEntityField)
    (nestedEntityId : ObjectId) (r : RoleToken) (subjectId : ObjectId)
    : M IOrganizationDoc :=
  setRole id (Some (nestedField, nestedEntityId)) r subjectId.

(** Modelled from the spec: [setUserRole(orgId, role, userId)], on the
    organization's own list. *)
Definition setUserRole (id : ObjectId) (r : RoleToken) (subjectId : ObjectId)
    : M IOrganizationDoc :=
  setRole id None r subjectId.

(** Modelled from the spec: [removeUserRole(orgId, userId)]. *)
Definition removeUserRole (id : ObjectId) (subjectId : ObjectId) : M unit :=
  removeRole id None subjectId.

(** Modelled from the spec: [setTeamRole(orgId, role, teamId)] sets a role
    on the team, that is an entry on the team's list whose subject is the
    team itself; [removeTeamRole] below removes that entry. *)
Definition setTeamRole (id : ObjectId) (r : RoleToken) (teamId : ObjectId)
    : M IOrganizationDoc :=
  setRole id (Some (NestedTeams, teamId)) r teamId.

(** Modelled from the spec: [removeTeamRole(orgId, teamId)]. *)
Definition removeTeamRole (id : ObjectId) (teamId : ObjectId) : M unit :=
  removeRole id (Some (NestedTeams, teamId)) teamId.

(** ** Authorization resolution *)

(** Modelled from the spec: step 1 of the resolver, the user's membership
    entry for the organization. *)
Definition findMembership (orgId : ObjectId) (user : IUserDoc)
    : option IOrganizationMembership :=
  head (filter (λ m, organizationId m = orgId) (organizationMemberships user)).

(** Modelled from the spec: step 3 of the resolver, the roles on the
    organization's own list that name the user, and every role on the list
    of every team of the membership. *)
Definition effectiveRoles (s : Store) (orgId : ObjectId) (user : IUserDoc)
    (m : IOrganizationMembership) : list RoleToken :=
  match Organization s !! orgId with
  | None => []
  | Some o =>
      (role <$> filter (λ a, userId a = user_id user) (accessControlList o))
      ++ (teamId ← membership_teams m;
          t ← filter (λ t, team_id t = teamId) (teams o);
          role <$> team_accessControlList t)
  end.

(** Modelled from the spec: [isAuthorized(orgId, requiredRoles, user)], the
    four steps of the authorization resolver.  It only reads the store. *)
Definition isAuthorized (s : Store) (orgId : ObjectId)
    (requiredRoles : option (list RoleToken)) (user : IUserDoc) : bool :=
  match findMembership orgId user with
  | None => false
  | Some m =>
      match requiredRoles with
      | None => true
      | Some required =>
          bool_decide (Exists (λ r, r ∈ required) (effectiveRoles s orgId user m))
      end
  end.

(** ** Organization create, membership and update *)

(** A [required] path of type [String]: present after the cast, and not
    the empty string. *)
Definition requiredString (v : JsValue) : option string :=
  match castString v with
  | Some s => if String.eqb s "" then None else Some s
  | None => None
  end.

(** Modelled from the spec: persisting a new organization, that is
    inserting a document under a new [_id]; an [_id] already in use is the
    store's duplicate-key failure. *)
Definition Organization_insert (id : ObjectId) (o : IOrganization) : M unit :=
  λ s,
    match Organization s !! id with
    | Some _ => (s, Throw DuplicateKey)
    | None => (setOrganization (<[id := o]> (Organization s)) s, Ok ())
    end.

(** [new Date()] *)
Definition currentTime : M Timestamp := λ s, (s, Ok (now s)).

(** Modelled from the spec: [addUser(orgId, userId)], the membership
    registry's [addUserToOrganization]: [NotFound] for an unknown
    organization or user, otherwise a membership entry is there afterwards,
    and only one. *)
Definition addUser (id : ObjectId) (userId : ObjectId) : M unit :=
  org ← Organization_findOne id;
  match org with
  | None => throw NotFound
  | Some _ =>
      user ← User_findOneAndUpdate userId (λ _, True)
               (withMemberships (λ ms,
                  if decide (id ∈ organizationId <$> ms) then ms
                  else ms ++ [mkMembership id []]));
      match user with
      | None => throw NotFound
      | Some _ => mret ()
      end
  end.

(** Modelled from the spec: [createOrganization(attrs, creatorId)]
    validates the attributes, persists the new organization, grants the
    creator the top organization role and then adds the creator as a
    member; the result is the organization with its founding entry. *)
Definition createOrganization (attrs : gmap string JsValue)
    (creatorId : ObjectId) : M IOrganizationDoc :=
  match requiredString (jsGet attrs "name") with
  | None => throw ValidationError
  | Some n =>
      newId ← newObjectId;
      t ← currentTime;
      _ ← Organization_insert newId
            {| org_name := n; createdAt := t; updatedAt := t;
               accessControlList := []; teams := []; projectGroups := [] |};
      org ← grantOnCreate newId None creatorId ORG_FULL_ADMIN;
      _ ← addUser newId creatorId;
      mret org
  end.

(** Modelled from the spec: the allow-list of [updateOrganization]; the
    tests type its input as [Partial<Pick<IOrganization, 'name'>>]. *)
Definition ORGANIZATION_UPDATABLE_FIELDS : list string := ["name"].

(** Modelled from the spec: [$set] of the allow-listed organization
    fields. *)
Definition setOrganizationFields (fieldSet : gmap string JsValue)
    (o : IOrganization) : IOrganization :=
  match fieldSet !! "name" ≫= castString with
  | Some n => withName n o
  | None => o
  end.

(** Modelled from the spec: [updateOrganization(id, partialFields)] copies
    the allow-listed fields of the input into the update and ignores every
    other key; the result is the updated document, or [null] for an
    unknown id. *)
Definition updateOrganization (id : ObjectId)
    (partialFields : gmap string JsValue) : M (option IOrganizationDoc) :=
  let fieldSet : gmap string JsValue :=
    foldl (λ acc key,
             match partialFields !! key with
             | Some v => <[key := v]> acc
             | None => acc
             end) ∅ ORGANIZATION_UPDATABLE_FIELDS in
  Organization_findOneAndUpdate id (λ _, True)
    (setOrganizationFields fieldSet) true.

(** ** The team sub-model *)

Definition TEAM_UPDATABLE_FIELDS : list string := ["name"; "logoPath"].

(** [TeamSchema] applied to the input of [createTeam] under
    [runValidators: true]: [name] is a required [String], [logoPath] an
    optional one, and the list of the role-assignment plugin starts
    empty. *)
Definition castTeam (newId : ObjectId) (team : gmap string JsValue)
    : M ITeamDoc :=
  match requiredString (jsGet team "name") with
  | Some n =>
      mret {| team_id := newId; team_name := n;
              team_logoPath := castString (jsGet team "logoPath");
              team_accessControlList := [] |}
  | None => throw ValidationError
  end.

(** [OrganizationSchema.statics.createTeam] *)
Definition createTeam (id : ObjectId) (team : gmap string JsValue)
    (creatorId : ObjectId) : M IOrganizationDoc :=
  newId ← newObjectId;
  newTeam ← castTeam newId team;
  updatedOrganization ←
    Organization_findOneAndUpdate id (λ _, True)
      (withTeams (addToSet newTeam)) true;
  match updatedOrganization with
  | None => throw NotFound
  | Some o =>
      (* grant creator admin role *)
      setNestedUserRole (org_id o) NestedTeams newId TEAM_ADMIN creatorId
  end.

(** [$set] of the keys [teams.$.name] and [teams.$.logoPath] on the team
    the positional operator selects. *)
Definition setTeamFields (fieldSet : gmap string JsValue)
    (t : ITeamDoc) : ITeamDoc :=
  {| team_id := team_id t;
     team_name := default (team_name t) (fieldSet !! "teams.$.name" ≫= castString);
     team_logoPath :=
       match fieldSet !! "teams.$.logoPath" ≫= castString with
       | Some p => Some p
       | None => team_logoPath t
       end;
     team_accessControlList := team_accessControlList t |}.

(** The loop of [updateTeam] over [TEAM_UPDATABLE_FIELDS]. *)
Definition newTeamFieldSet (newTeamInput : gmap string JsValue)
    : gmap string JsValue :=
  foldl (λ acc key,
           if truthy (jsGet newTeamInput key)
           then <["teams.$." +:+ key := jsGet newTeamInput key]> acc
           else acc) ∅ TEAM_UPDATABLE_FIELDS.

(** [OrganizationSchema.statics.updateTeam] *)
Definition updateTeam (id : ObjectId) (teamId : ObjectId)
    (team : gmap string JsValue) : M (option IOrganizationDoc) :=
  Organization_findOneAndUpdate id (hasTeam teamId)
    (withTeams (positional (λ t, team_id t = teamId)
                  (setTeamFields (newTeamFieldSet team)))) true.

(** [OrganizationSchema.statics.deleteTeam] *)
Definition deleteTeam (id : ObjectId) (teamId : ObjectId) : M unit :=
  _ ← Organization_findOneAndUpdate id (hasTeam teamId)
        (withTeams (pull (λ t, team_id t = teamId))) false;
  (* delete all user membership to this team *)
  User_updateMany (hasMembership id)
    (withMemberships
       (filteredPositional (λ t, organizationId t = id)
          (withMembershipTeams (pull (λ x, x = teamId))))).

(** [organization?.teams?.filter((t) => t._id?.equals(teamId)).length === 1] *)
Definition organizationTeamFound (organization : option IOrganizationDoc)
    (teamId : ObjectId) : bool :=
  match organization with
  | Some o =>
      bool_decide (length (filter (λ t, team_id t = teamId) (teams o)) = 1%nat)
  | None => false
  end.

(** [OrganizationSchema.statics.addUserToTeam] *)
Definition addUserToTeam (id : ObjectId) (teamId : ObjectId)
    (userId : ObjectId) : M unit :=
  (* validate that team exists *)
  organization ← Organization_findOne id;
  if negb (organizationTeamFound organization teamId) then throw NotFound
  else
    user ← User_findOneAndUpdate userId (hasMembership id)
             (withMemberships
                (filteredPositional (λ t, organizationId t = id)
                   (withMembershipTeams (addToSet teamId))));
    match user with
    | None =>
        (* user does not exist or is not a member of the organization *)
        throw NotFound
    | Some _ => mret ()
    end.

(** [OrganizationSchema.statics.removeUserFromTeam] *)
Definition removeUserFromTeam (id : ObjectId) (teamId : ObjectId)
    (userId : ObjectId) : M unit :=
  (* validate that team exists *)
  organization ← Organization_findOne id;
  if negb (organizationTeamFound organization teamId) then throw NotFound
  else
    user ← User_findOneAndUpdate userId (hasMembership id)
             (withMemberships
                (filteredPositional (λ t, organizationId t = id)
                   (withMembershipTeams (pull (λ x, x = teamId)))));
    match user with
    | None =>
        (* user does not exist or is not a member of the organization *)
        throw NotFound
    | Some _ => mret ()
    end.

(** [addUserToTeam] and [removeUserFromTeam] are the same code around two
    update operators on the array of team ids ([$addToSet] and [$pull]);
    this is that code, with the operator left open. *)
Definition updateTeamMembership (op : list ObjectId → list ObjectId)
    (id : ObjectId) (teamId : ObjectId) (userId : ObjectId) : M unit :=
  organization ← Organization_findOne id;
  if negb (organizationTeamFound organization teamId) then throw NotFound
  else
    user ← User_findOneAndUpdate userId (hasMembership id)
             (withMemberships
                (filteredPositional (λ t, organizationId t = id)
                   (withMembershipTeams op)));
    match user with
    | None => throw NotFound
    | Some _ => mret ()
    end.

(** ** Notions of the data model *)

(** The team exists under the organization. *)
Definition teamExists (s : Store) (id teamId : ObjectId) : Prop :=
  ∃ o, Organization s !! id = Some o ∧ teamId ∈ (team_id <$> teams o).

(** The user exists and holds a membership entry for the organization. *)
Definition isOrganizationMember (s : Store) (userId id : ObjectId) : Prop :=
  ∃ u, User s !! userId = Some u
       ∧ id ∈ (organizationId <$> organizationMemberships u).

(** Teams are unique by identifier within their organization. *)
Definition teamsUnique (s : Store) (id : ObjectId) : Prop :=
  ∀ o, Organization s !! id = Some o → NoDup (team_id <$> teams o).

(** ** Example data

    The preset of the tests: one organization created by user 1, with one
    team created by user 1, who is also a member of the team; user 2 is a
    member of no organization, user 3 a member of the organization and of
    no team. *)

Definition exampleTeam : ITeamDoc :=
  {| team_id := 101; team_name := "team"; team_logoPath := Some "/logo.png";
     team_accessControlList := [mkACE 1 TEAM_ADMIN] |}.

Definition exampleOrganization : IOrganization :=
  {| org_name := "org1"; createdAt := 1000; updatedAt := 1000;
     accessControlList := [mkACE 1 ORG_FULL_ADMIN];
     teams := [exampleTeam]; projectGroups := [] |}.

Definition exampleCreator : IUser :=
  {| displayName := "user"; email := "user@user.co";
     organizationMemberships := [mkMembership 100 [101%N]] |}.

Definition exampleOutsider : IUser :=
  {| displayName := "user"; email := "user@user.co";
     organizationMemberships := [] |}.

Definition exampleMember : IUser :=
  {| displayName := "member"; email := "member@user.co";
     organizationMemberships := [mkMembership 100 []] |}.

Definition exampleStore : Store :=
  {| Organization := {[ 100%N := exampleOrganization ]};
     User := {[ 1%N := exampleCreator; 2%N := exampleOutsider;
                3%N := exampleMember ]};
     nextObjectId := 102; now := 2000 |}.

(** The store before anything is created: the two users, no organization. *)
Definition emptyStore : Store :=
  {| Organization := ∅;
     User := {[ 1%N := exampleOutsider; 2%N := exampleOutsider ]};
     nextObjectId := 100; now := 1000 |}.

(** ** Invariants of the two collections *)

(** The team ids of every membership entry are a set. *)
Definition teamIdsAreSets (s : Store) : Prop :=
  ∀ userId u m,
    User s !! userId = Some u → m ∈ organizationMemberships u →
    NoDup (membership_teams m).

(** No membership entry for the organization lists a team that does not
    exist under it. *)
Definition noDanglingTeams (s : Store) (id : ObjectId) : Prop :=
  ∀ userId u m teamId,
    User s !! userId = Some u → m ∈ organizationMemberships u →
    organizationId m = id → teamId ∈ membership_teams m →
    teamExists s id teamId.

(** Every team id of the organization was handed out by the generator of
    ids before. *)
Definition teamIdsGenerated (s : Store) (id : ObjectId) : Prop :=
  ∀ o t, Organization s !! id = Some o → t ∈ teams o →
         (team_id t < nextObjectId s)%N.

(** What a membership operation on [userId] may change from [s] to [s']:
    nothing but the team ids inside that user's membership entries. *)
Definition onlyTeamIdsOf (userId : ObjectId) (s s' : Store) : Prop :=
  Organization s' = Organization s
  ∧ nextObjectId s' = nextObjectId s
  ∧ now s' = now s
  ∧ (∀ other, other ≠ userId → User s' !! other = User s !! other)
  ∧ match User s !! userId with
    | None => User s' !! userId = None
    | Some u =>
        ∃ u', User s' !! userId = Some u'
              ∧ displayName u' = displayName u
              ∧ email u' = email u
              ∧ organizationId <$> organizationMemberships u'
                = organizationId <$> organizationMemberships u
    end.

(** An organization document in which two teams carry the same id, as no
    run of [createTeam] produces it. *)
Definition duplicateTeamsStore : Store :=
  {| Organization :=
       {[ 100%N := withTeams (λ ts, ts ++ [exampleTeam]) exampleOrganization ]};
     User := {[ 1%N := exampleCreator; 3%N := exampleMember ]};
     nextObjectId := 102; now := 2000 |}.

(** * Properties *)

(** ** The array operators *)

Section array_operators.
Context {A : Type}.
Implicit Types (l : list A) (x : A).

Lemma positional_no_match (P : A → Prop) `{∀ x, Decision (P x)} (f : A → A) l :
  Forall (λ x, ¬ P x) l → positional P f l = l.
Proof.
  induction 1 as [|x l Hx _ IH]; simpl; [done|].
  by rewrite decide_False, IH.
Qed.

Lemma positional_fixed (P : A → Prop) `{∀ x, Decision (P x)} (f : A → A) l :
  (∀ x, x ∈ l → P x → f x = x) → positional P f l = l.
Proof.
  induction l as [|x l IH]; simpl; intros Hf; [done|].
  destruct (decide (P x)).
  - rewrite Hf; [done|left|done].
  - rewrite IH; [done|]. intros y Hy. apply Hf. by right.
Qed.

Lemma positional_fmap {B : Type} (g : A → B)
    (P : A → Prop) `{∀ x, Decision (P x)} (f : A → A) l :
  (∀ x, g (f x) = g x) → g <$> positional P f l = g <$> l.
Proof.
  intros Hg. induction l as [|x l IH]; [done|].
  cbn [positional]. destruct (decide (P x)); rewrite !fmap_cons.
  - by rewrite Hg.
  - by rewrite IH.
Qed.

(** What the positional operator leaves: the elements before the first
    match, the updated match, the elements after it. *)
Lemma positional_split (P : A → Prop) `{∀ x, Decision (P x)} (f : A → A) l :
  Exists P l →
  ∃ l1 x l2, l = l1 ++ x :: l2 ∧ Forall (λ y, ¬ P y) l1 ∧ P x
             ∧ positional P f l = l1 ++ f x :: l2.
Proof.
  induction l as [|y l IH]; intros HE; [by apply Exists_nil in HE|].
  simpl. destruct (decide (P y)) as [Hy|Hy].
  - by exists [], y, l.
  - apply Exists_cons in HE as [?|HE]; [done|].
    destruct (IH HE) as (l1 & x & l2 & -> & Hl1 & Hx & ->).
    exists (y :: l1), x, l2. repeat split; [by constructor|done].
Qed.

Lemma filteredPositional_fmap {B : Type} (g : A → B)
    (P : A → Prop) `{∀ x, Decision (P x)} (f : A → A) l :
  (∀ x, g (f x) = g x) → g <$> filteredPositional P f l = g <$> l.
Proof.
  intros Hg. unfold filteredPositional. rewrite <- list_fmap_compose.
  apply list_fmap_ext. intros i x _. simpl. by case_decide.
Qed.

Lemma filteredPositional_fixed
    (P : A → Prop) `{∀ x, Decision (P x)} (f : A → A) l :
  (∀ x, x ∈ l → P x → f x = x) → filteredPositional P f l = l.
Proof.
  intros Hf. unfold filteredPositional.
  rewrite <- (list_fmap_id l) at 2. apply list_fmap_ext.
  intros i x Hi. simpl. case_decide; [|done].
  apply Hf; [|done]. by eapply list_elem_of_lookup_2.
Qed.

Lemma filteredPositional_lookup
    (P : A → Prop) `{∀ x, Decision (P x)} (f : A → A) l (i : nat) :
  filteredPositional P f l !! i
  = (λ x, if decide (P x) then f x else x) <$> l !! i.
Proof. unfold filteredPositional. apply list_lookup_fmap. Qed.

Lemma pull_not_elem_of (P : A → Prop) `{∀ x, Decision (P x)} l x :
  P x → x ∉ pull P l.
Proof. unfold pull. rewrite list_elem_of_filter. tauto. Qed.

Lemma pull_absent (P : A → Prop) `{∀ x, Decision (P x)} l :
  Forall (λ x, ¬ P x) l → pull P l = l.
Proof.
  unfold pull. induction 1 as [|x l Hx _ IH]; [done|].
  by rewrite filter_cons_True, IH.
Qed.

Context `{EqDecision A}.

Lemma elem_of_addToSet x l : x ∈ addToSet x l.
Proof.
  unfold addToSet. case_decide; [done|].
  apply elem_of_app. right. by left.
Qed.

Lemma addToSet_present x l : x ∈ l → addToSet x l = l.
Proof. intros Hx. unfold addToSet. by rewrite decide_True. Qed.

Lemma addToSet_absent x l : x ∉ l → addToSet x l = l ++ [x].
Proof. intros Hx. unfold addToSet. by rewrite decide_False. Qed.

Lemma NoDup_addToSet x l : NoDup l → NoDup (addToSet x l).
Proof.
  intros Hl. unfold addToSet. case_decide; [done|].
  apply NoDup_app. split_and!; [done| |apply NoDup_singleton].
  intros y Hy ->%list_elem_of_singleton. done.
Qed.

Lemma addToSet_idempotent x l : addToSet x (addToSet x l) = addToSet x l.
Proof. apply addToSet_present, elem_of_addToSet. Qed.
End array_operators.

(** ** Running an operation *)

Lemma bind_Ok {A B : Type} (m : M A) (k : A → M B) s s' a :
  m s = (s', Ok a) → (m ≫= k) s = k a s'.
Proof. intros Hm. unfold mbind, M_bind. by rewrite Hm. Qed.

Lemma bind_Throw {A B : Type} (m : M A) (k : A → M B) s s' e :
  m s = (s', Throw e) → (m ≫= k) s = (s', Throw e).
Proof. intros Hm. unfold mbind, M_bind. by rewrite Hm. Qed.

Lemma findOneAndUpdate_miss id (cond : IOrganization → Prop)
    `{∀ o, Decision (cond o)} update new s :
  (∀ o, Organization s !! id = Some o → ¬ cond o) →
  Organization_findOneAndUpdate id cond update new s = (s, Ok None).
Proof.
  intros Hmiss. unfold Organization_findOneAndUpdate.
  destruct (Organization s !! id) as [o|] eqn:Ho; [|done].
  rewrite decide_False; [done|]. by apply Hmiss.
Qed.

Lemma findOneAndUpdate_hit id (cond : IOrganization → Prop)
    `{∀ o, Decision (cond o)} update new s o :
  Organization s !! id = Some o → cond o →
  Organization_findOneAndUpdate id cond update new s
  = (setOrganization (<[id := touch (now s) (update o)]> (Organization s)) s,
     Ok (Some (mkOrganizationDoc id
                 (if new then touch (now s) (update o) else o)))).
Proof.
  intros Ho Hc. unfold Organization_findOneAndUpdate.
  by rewrite Ho, decide_True.
Qed.

(** ** Authorization *)

Lemma findMembership_None orgId (user : IUserDoc) :
  orgId ∉ organizationId <$> organizationMemberships user →
  findMembership orgId user = None.
Proof.
  intros Hno. unfold findMembership.
  destruct (filter _ _) as [|m l] eqn:Hf; [done|].
  exfalso. apply Hno.
  assert (m ∈ filter (λ m, organizationId m = orgId)
                (organizationMemberships user)) as Hm by (rewrite Hf; left).
  apply list_elem_of_filter in Hm as [<- Hm].
  by apply list_elem_of_fmap_2.
Qed.

(** C1: a user with no membership entry for an organization is not
    authorized for it, whatever the required roles are, [undefined]
    included. *)
Theorem isAuthorized_non_member s orgId requiredRoles (user : IUserDoc) :
  orgId ∉ organizationId <$> organizationMemberships user →
  isAuthorized s orgId requiredRoles user = false.
Proof.
  intros Hno. unfold isAuthorized. by rewrite findMembership_None.
Qed.

Lemma isAuthorized_non_member_witness :
  (100%N ∉ (organizationId <$> organizationMemberships exampleOutsider))
  ∧ isAuthorized exampleStore 100 (Some [ORG_ADMIN]) (mkUserDoc 2 exampleOutsider)
    = false.
Proof.
  assert (100%N ∉ (organizationId <$> organizationMemberships exampleOutsider))
    as Hno by (simpl; apply not_elem_of_nil).
  split; [exact Hno|].
  exact (isAuthorized_non_member exampleStore 100 (Some [ORG_ADMIN])
           (mkUserDoc 2 exampleOutsider) Hno).
Defined.

(** ** Organization create and update *)

(** C2: a successful [createOrganization] returns the organization with
    exactly one access-control entry, the creator's [ORG_FULL_ADMIN]; the
    returned document is the stored one. *)
Theorem createOrganization_founding_entry attrs creatorId s s' org :
  createOrganization attrs creatorId s = (s', Ok org) →
  accessControlList org = [mkACE creatorId ORG_FULL_ADMIN]
  ∧ Organization s' !! org_id org = Some (org_fields org).
Proof.
  unfold createOrganization.
  destruct (requiredString (jsGet attrs "name")) as [n|]; [|done].
  unfold mbind, M_bind, newObjectId, currentTime, Organization_insert. simpl.
  destruct (Organization s !! nextObjectId s) eqn:Hfree; [done|]. simpl.
  unfold grantOnCreate, setRole.
  erewrite bind_Ok; cycle 1.
  { apply findOneAndUpdate_hit; [simpl; apply lookup_insert_eq|done]. }
  simpl. unfold addUser, Organization_findOne, User_findOneAndUpdate.
  unfold mbind, M_bind, mret, M_ret. simpl.
  rewrite lookup_insert_eq. simpl.
  destruct (User s !! creatorId) as [u|]; simpl; [|done].
  intros [= <- <-]. simpl. split; [done|]. apply lookup_insert_eq.
Qed.

Lemma createOrganization_founding_entry_witness :
  ∃ s' org,
    createOrganization {[ "name" := JString "org1" ]} 1 emptyStore = (s', Ok org)
    ∧ accessControlList org = [mkACE 1 ORG_FULL_ADMIN].
Proof.
  eexists _, _. split; [vm_compute; reflexivity|].
  eapply (createOrganization_founding_entry {[ "name" := JString "org1" ]} 1
            emptyStore).
  vm_compute. reflexivity.
Defined.

Lemma updatable_organization_fields (partialFields : gmap string JsValue) :
  foldl (λ (acc : gmap string JsValue) key,
           match partialFields !! key with
           | Some v => <[key := v]> acc
           | None => acc
           end) ∅ ORGANIZATION_UPDATABLE_FIELDS !! "name"
  = partialFields !! "name".
Proof.
  simpl. destruct (partialFields !! "name") as [v|]; [|done].
  apply lookup_insert_eq.
Qed.

(** C8: [updateOrganization] on an existing organization applies the
    allow-listed [name] only.  Whatever else the partial input binds
    ([_id], [createdAt], [updatedAt] included), the call succeeds, the
    document stays under its id, and its [createdAt], access-control list,
    teams and project groups are the original ones; [updatedAt] is the
    time of the update, not a value of the input. *)
Theorem updateOrganization_allow_list s id partialFields o :
  Organization s !! id = Some o →
  ∃ o',
    updateOrganization id partialFields s
    = (setOrganization (<[id := o']> (Organization s)) s,
       Ok (Some (mkOrganizationDoc id o')))
    ∧ org_name o' = default (org_name o) (partialFields !! "name" ≫= castString)
    ∧ createdAt o' = createdAt o
    ∧ updatedAt o' = now s
    ∧ accessControlList o' = accessControlList o
    ∧ teams o' = teams o
    ∧ projectGroups o' = projectGroups o.
Proof.
  intros Ho. unfold updateOrganization.
  rewrite (findOneAndUpdate_hit id _ _ true s o Ho I).
  eexists. split; [reflexivity|].
  unfold setOrganizationFields. rewrite updatable_organization_fields.
  by destruct (partialFields !! "name" ≫= castString).
Qed.

Lemma updateOrganization_allow_list_witness :
  Organization exampleStore !! 100%N = Some exampleOrganization
  ∧ ∃ o',
      snd (updateOrganization 100
             {[ "name" := JString "x"; "_id" := JObject "5f0c";
                "createdAt" := JObject "Mon Nov 02 2026" ]} exampleStore)
      = Ok (Some (mkOrganizationDoc 100 o'))
      ∧ org_name o' = "x" ∧ createdAt o' = 1000%N.
Proof.
  split; [reflexivity|].
  destruct (updateOrganization_allow_list exampleStore 100
              {[ "name" := JString "x"; "_id" := JObject "5f0c";
                 "createdAt" := JObject "Mon Nov 02 2026" ]}
              exampleOrganization eq_refl)
    as (o' & Hrun & Hname & Hcreated & _).
  exists o'. rewrite Hrun. split; [done|]. split; [|done].
  rewrite Hname. reflexivity.
Defined.

(** ** Team update *)

(** C10: when the organization does not exist, or has no team with this
    id, [updateTeam] returns [null] without raising, and the store is left
    as it was. *)
Theorem updateTeam_not_found s id teamId team :
  Organization s !! id = None
  ∨ (∃ o, Organization s !! id = Some o ∧ teamId ∉ (team_id <$> teams o)) →
  updateTeam id teamId team s = (s, Ok None).
Proof.
  intros Hmiss. unfold updateTeam. apply findOneAndUpdate_miss.
  intros o Ho. destruct Hmiss as [Hnone|(o' & Ho' & Hno)]; [congruence|].
  unfold hasTeam. congruence.
Qed.

Lemma updateTeam_not_found_witness :
  (Organization exampleStore !! 100%N = None
   ∨ (∃ o, Organization exampleStore !! 100%N = Some o
           ∧ 102%N ∉ (team_id <$> teams o)))
  ∧ updateTeam 100 102 {[ "name" := JString "renamed" ]} exampleStore
    = (exampleStore, Ok None).
Proof.
  assert (Organization exampleStore !! 100%N = None
          ∨ (∃ o, Organization exampleStore !! 100%N = Some o
                  ∧ 102%N ∉ (team_id <$> teams o))) as Hmiss.
  { right. exists exampleOrganization. split; [reflexivity|].
    simpl. intros Hin. apply list_elem_of_singleton in Hin. discriminate. }
  split; [exact Hmiss|].
  exact (updateTeam_not_found exampleStore 100 102 _ Hmiss).
Defined.

Lemma positional_ext {A : Type} (P : A → Prop) `{∀ x, Decision (P x)}
    (f g : A → A) (l : list A) :
  (∀ x, f x = g x) → positional P f l = positional P g l.
Proof.
  intros Hfg. induction l as [|x l IH]; [done|].
  cbn [positional]. by rewrite Hfg, IH.
Qed.

(** Only truthy values pass the guard of the loop, and those are values
    the [String] caster accepts. *)
Lemma truthy_castString v : truthy v = true → is_Some (castString v).
Proof. destruct v as [| |[]|str|str]; simpl; by eauto. Qed.

(** The falsy values among the input values: [undefined], [null], [false]
    and the empty string. *)
Lemma falsy_values v :
  truthy v = false ↔ v ∈ [JUndefined; JNull; JBool false; JString ""].
Proof.
  rewrite !elem_of_cons, elem_of_nil. split.
  - destruct v as [| |[]|str|str]; simpl; try done; try tauto.
    destruct str; simpl; [tauto|done].
  - intros [->|[->|[->|[->|[]]]]]; done.
Qed.

Lemma newTeamFieldSet_name team :
  newTeamFieldSet team !! "teams.$.name"
  = if truthy (jsGet team "name") then Some (jsGet team "name") else None.
Proof.
  unfold newTeamFieldSet. simpl.
  destruct (truthy (jsGet team "name")), (truthy (jsGet team "logoPath"));
    by simplify_map_eq.
Qed.

Lemma newTeamFieldSet_logoPath team :
  newTeamFieldSet team !! "teams.$.logoPath"
  = if truthy (jsGet team "logoPath") then Some (jsGet team "logoPath") else None.
Proof.
  unfold newTeamFieldSet. simpl.
  destruct (truthy (jsGet team "name")), (truthy (jsGet team "logoPath"));
    by simplify_map_eq.
Qed.

(** What [updateTeam] does to the team it selects, read off the input:
    a field of the allow-list bound to a truthy value is replaced by that
    value, any other field is kept. *)
Lemma setTeamFields_newTeamFieldSet team t :
  setTeamFields (newTeamFieldSet team) t
  = {| team_id := team_id t;
       team_name :=
         if truthy (jsGet team "name")
         then default (team_name t) (castString (jsGet team "name"))
         else team_name t;
       team_logoPath :=
         if truthy (jsGet team "logoPath")
         then castString (jsGet team "logoPath")
         else team_logoPath t;
       team_accessControlList := team_accessControlList t |}.
Proof.
  unfold setTeamFields.
  rewrite newTeamFieldSet_name, newTeamFieldSet_logoPath.
  destruct (truthy (jsGet team "name")) eqn:Hn,
           (truthy (jsGet team "logoPath")) eqn:Hl; simpl; try done.
  - destruct (truthy_castString _ Hl) as [p ->]. done.
  - destruct (truthy_castString _ Hl) as [p ->]. done.
Qed.

(** C9: on an organization that has the team, [updateTeam] succeeds and
    rewrites the first team with this id: [name] and [logoPath] take the
    input's value when that value is truthy and keep their stored value
    when it is falsy or missing; the team's id and access-control list,
    every other key of the input, the other teams and the other fields of
    the organization are not involved. *)
Theorem updateTeam_allow_list s id teamId team o :
  Organization s !! id = Some o →
  teamId ∈ (team_id <$> teams o) →
  ∃ o',
    updateTeam id teamId team s
    = (setOrganization (<[id := o']> (Organization s)) s,
       Ok (Some (mkOrganizationDoc id o')))
    ∧ teams o'
      = positional (λ t, team_id t = teamId)
          (λ t, {| team_id := team_id t;
                   team_name :=
                     if truthy (jsGet team "name")
                     then default (team_name t) (castString (jsGet team "name"))
                     else team_name t;
                   team_logoPath :=
                     if truthy (jsGet team "logoPath")
                     then castString (jsGet team "logoPath")
                     else team_logoPath t;
                   team_accessControlList := team_accessControlList t |})
          (teams o)
    ∧ team_id <$> teams o' = team_id <$> teams o
    ∧ team_accessControlList <$> teams o' = team_accessControlList <$> teams o
    ∧ (truthy (jsGet team "name") = false →
       team_name <$> teams o' = team_name <$> teams o)
    ∧ (truthy (jsGet team "logoPath") = false →
       team_logoPath <$> teams o' = team_logoPath <$> teams o)
    ∧ org_name o' = org_name o
    ∧ createdAt o' = createdAt o
    ∧ accessControlList o' = accessControlList o
    ∧ projectGroups o' = projectGroups o.
Proof.
  intros Ho Hteam. unfold updateTeam.
  rewrite (findOneAndUpdate_hit id _ _ true s o Ho Hteam).
  eexists. split; [reflexivity|]. simpl.
  split; [apply positional_ext, setTeamFields_newTeamFieldSet|].
  split; [by apply positional_fmap|].
  split; [by apply positional_fmap|].
  split.
  { intros Hn. apply positional_fmap. intros t.
    rewrite setTeamFields_newTeamFieldSet. simpl. by rewrite Hn. }
  split; [|done].
  intros Hl. apply positional_fmap. intros t.
  rewrite setTeamFields_newTeamFieldSet. simpl. by rewrite Hl.
Qed.

Lemma updateTeam_allow_list_witness :
  (Organization exampleStore !! 100%N = Some exampleOrganization
   ∧ 101%N ∈ (team_id <$> teams exampleOrganization))
  ∧ ∃ o',
      snd (updateTeam 100 101
             {[ "name" := JString ""; "logoPath" := JString "/new.png";
                "accessControlList" := JNull ]} exampleStore)
      = Ok (Some (mkOrganizationDoc 100 o'))
      ∧ teams o'
        = [ {| team_id := 101; team_name := "team";
               team_logoPath := Some "/new.png";
               team_accessControlList := [mkACE 1 TEAM_ADMIN] |} ].
Proof.
  assert (101%N ∈ (team_id <$> teams exampleOrganization)) as Hteam
    by (simpl; left).
  split; [split; [reflexivity|exact Hteam]|].
  destruct (updateTeam_allow_list exampleStore 100 101
              {[ "name" := JString ""; "logoPath" := JString "/new.png";
                 "accessControlList" := JNull ]}
              exampleOrganization eq_refl Hteam)
    as (o' & Hrun & Hteams & _).
  exists o'. rewrite Hrun. split; [done|].
  rewrite Hteams. vm_compute. reflexivity.
Defined.

(** ** Team deletion *)

(** The update of [deleteTeam] on one user's memberships. *)
Lemma pulled_memberships_spec id teamId (ms : list IOrganizationMembership) :
  organizationId
    <$> filteredPositional (λ t, organizationId t = id)
          (withMembershipTeams (pull (λ x, x = teamId))) ms
  = organizationId <$> ms
  ∧ ∀ m', m' ∈ filteredPositional (λ t, organizationId t = id)
                 (withMembershipTeams (pull (λ x, x = teamId))) ms →
          organizationId m' = id → teamId ∉ membership_teams m'.
Proof.
  split; [by apply filteredPositional_fmap|].
  unfold filteredPositional. intros m' (m & -> & Hm)%list_elem_of_fmap.
  case_decide as Hid; [|done].
  intros _. simpl. by apply pull_not_elem_of.
Qed.

Lemma cascade_entries id teamId (ms : list IOrganizationMembership) (i : nat) m :
  ms !! i = Some m →
  ∃ m', filteredPositional (λ t, organizationId t = id)
          (withMembershipTeams (pull (λ x, x = teamId))) ms !! i = Some m'
        ∧ organizationId m' = organizationId m
        ∧ (organizationId m ≠ id → m' = m)
        ∧ (organizationId m = id →
           membership_teams m' = filter (λ x, x ≠ teamId) (membership_teams m)).
Proof.
  intros Hi. rewrite filteredPositional_lookup, Hi. simpl.
  eexists. split; [reflexivity|]. case_decide; by split_and!.
Qed.

Lemma deleteTeam_users s id teamId :
  deleteTeam id teamId s
  = (setUser
       ((λ u, if decide (hasMembership id u)
              then withMemberships
                     (filteredPositional (λ t, organizationId t = id)
                        (withMembershipTeams (pull (λ x, x = teamId)))) u
              else u) <$> User s)
       (fst (Organization_findOneAndUpdate id (hasTeam teamId)
               (withTeams (pull (λ t, team_id t = teamId))) false s)),
     Ok ()).
Proof.
  unfold deleteTeam, User_updateMany, mbind, M_bind.
  unfold Organization_findOneAndUpdate.
  destruct (Organization s !! id) as [o|]; [|done].
  by case_decide.
Qed.

(** C4: [deleteTeam] always succeeds.  Afterwards the organization has no
    team with this id and keeps its other teams and its other fields, and
    the other organizations are as they were; every user still has the
    same profile fields and the same membership entries, for the same
    organizations and in the same order; an entry for another organization
    is unchanged, and an entry for this organization has lost the team's
    id and nothing else. *)
Theorem deleteTeam_cascade s id teamId :
  ∃ s',
    deleteTeam id teamId s = (s', Ok ())
    ∧ (∀ o, Organization s !! id = Some o →
         ∃ o', Organization s' !! id = Some o'
               ∧ teams o' = filter (λ t, team_id t ≠ teamId) (teams o)
               ∧ (teamId ∉ (team_id <$> teams o'))
               ∧ org_name o' = org_name o
               ∧ createdAt o' = createdAt o
               ∧ accessControlList o' = accessControlList o
               ∧ projectGroups o' = projectGroups o)
    ∧ (Organization s !! id = None → Organization s' !! id = None)
    ∧ (∀ other, other ≠ id → Organization s' !! other = Organization s !! other)
    ∧ (∀ userId,
         match User s !! userId with
         | None => User s' !! userId = None
         | Some u =>
             ∃ u', User s' !! userId = Some u'
                   ∧ displayName u' = displayName u
                   ∧ email u' = email u
                   ∧ organizationId <$> organizationMemberships u'
                     = organizationId <$> organizationMemberships u
                   ∧ (∀ m', m' ∈ organizationMemberships u' →
                            organizationId m' = id →
                            teamId ∉ membership_teams m')
                   ∧ ∀ (i : nat) m, organizationMemberships u !! i = Some m →
                       ∃ m', organizationMemberships u' !! i = Some m'
                             ∧ organizationId m' = organizationId m
                             ∧ (organizationId m ≠ id → m' = m)
                             ∧ (organizationId m = id →
                                membership_teams m'
                                = filter (λ x, x ≠ teamId) (membership_teams m))
         end).
Proof.
  eexists. split; [apply deleteTeam_users|]. simpl.
  split_and!.
  - intros o Ho. unfold Organization_findOneAndUpdate. rewrite Ho.
    destruct (decide (hasTeam teamId o)) as [Hteam|Hteam]; simpl.
    + eexists. split; [apply lookup_insert_eq|]. simpl.
      split_and!; try done.
      intros (t & Hid & Ht)%list_elem_of_fmap.
      apply list_elem_of_filter in Ht as [Hne _]. done.
    + exists o. split_and!; try done.
      symmetry. apply (pull_absent (λ t, team_id t = teamId)).
      apply Forall_forall. intros t Ht Hid. apply Hteam.
      unfold hasTeam. rewrite <- Hid. by apply list_elem_of_fmap_2.
  - intros Hnone. unfold Organization_findOneAndUpdate. by rewrite Hnone.
  - intros other Hother. unfold Organization_findOneAndUpdate.
    destruct (Organization s !! id) as [o|]; [|done].
    case_decide; [|done]. simpl. by apply lookup_insert_ne.
  - intros userId. rewrite lookup_fmap.
    destruct (User s !! userId) as [u|]; [|done]. simpl.
    eexists. split; [reflexivity|].
    case_decide as Hmem; simpl.
    + split_and!; try done.
      * apply pulled_memberships_spec.
      * apply pulled_memberships_spec.
      * intros i m Hi. by apply cascade_entries.
    + split_and!; try done.
      * intros m' Hm' Hid. exfalso. apply Hmem.
        unfold hasMembership. rewrite <- Hid. by apply list_elem_of_fmap_2.
      * intros i m Hi. exists m. split_and!; try done.
        intros Hid. exfalso. apply Hmem. unfold hasMembership. rewrite <- Hid.
        apply list_elem_of_fmap_2. by eapply list_elem_of_lookup_2.
Qed.

Lemma deleteTeam_cascade_witness :
  ∃ s',
    deleteTeam 100 101 exampleStore = (s', Ok ())
    ∧ (∃ o', Organization s' !! 100%N = Some o' ∧ teams o' = [])
    ∧ (∃ u', User s' !! 1%N = Some u'
             ∧ organizationMemberships u' = [mkMembership 100 []]).
Proof.
  destruct (deleteTeam_cascade exampleStore 100 101)
    as (s' & Hrun & Horg & _ & _ & Husers).
  exists s'. split; [exact Hrun|]. split.
  - destruct (Horg exampleOrganization eq_refl) as (o' & Ho' & Hteams & _).
    exists o'. split; [exact Ho'|]. rewrite Hteams. reflexivity.
  - pose proof (Husers 1%N) as Huser.
    assert (User exampleStore !! 1%N = Some exampleCreator) as Hcreator
      by reflexivity.
    rewrite Hcreator in Huser.
    destruct Huser as (u' & Hu' & _ & _ & Hids & _ & Hentries).
    exists u'. split; [exact Hu'|].
    destruct (Hentries 0%nat (mkMembership 100 [101%N]) eq_refl)
      as (m' & Hm' & Hid & _ & Hteams).
    destruct (organizationMemberships u') as [|m0 [|m1 ms]];
      [discriminate|..|discriminate].
    injection Hm' as ->. destruct m' as [oid ts]. simpl in *.
    rewrite Hid, (Hteams eq_refl). reflexivity.
Defined.

(** ** Team membership *)

Lemma length_filter_NoDup {A B : Type} `{EqDecision B} (f : A → B) (y : B)
    (l : list A) :
  NoDup (f <$> l) →
  length (filter (λ x, f x = y) l) = if decide (y ∈ (f <$> l)) then 1%nat else 0%nat.
Proof.
  induction l as [|x l IH]; [done|].
  rewrite fmap_cons. intros [Hx Hl]%NoDup_cons.
  specialize (IH Hl). rewrite filter_cons.
  destruct (decide (f x = y)) as [<-|Hne].
  - rewrite decide_True by left. simpl. rewrite IH.
    by rewrite decide_False.
  - rewrite IH. destruct (decide (y ∈ (f <$> l))) as [Hy|Hy].
    + rewrite decide_True; [done|by right].
    + rewrite decide_False; [done|].
      intros [?|?]%elem_of_cons; congruence.
Qed.

Lemma organizationTeamFound_spec s id teamId :
  teamsUnique s id →
  organizationTeamFound (mkOrganizationDoc id <$> Organization s !! id) teamId
  = true ↔ teamExists s id teamId.
Proof.
  intros Huniq. unfold organizationTeamFound, teamExists.
  destruct (Organization s !! id) as [o|] eqn:Ho; simpl.
  - rewrite bool_decide_eq_true.
    rewrite (length_filter_NoDup team_id teamId (teams o)) by by apply Huniq.
    case_decide as Hin; split.
    + intros _. by exists o.
    + done.
    + done.
    + intros (? & [= <-] & ?). done.
  - split; [done|]. by intros (? & ? & _).
Qed.

Lemma setUser_same s userId u :
  User s !! userId = Some u → setUser (<[userId := u]> (User s)) s = s.
Proof.
  intros Hu. unfold setUser. rewrite insert_id by done. by destruct s.
Qed.

Lemma addUserToTeam_shape id teamId userId :
  addUserToTeam id teamId userId
  = updateTeamMembership (addToSet teamId) id teamId userId.
Proof. reflexivity. Qed.

Lemma removeUserFromTeam_shape id teamId userId :
  removeUserFromTeam id teamId userId
  = updateTeamMembership (pull (λ x, x = teamId)) id teamId userId.
Proof. reflexivity. Qed.

Section team_membership.
Variable op : list ObjectId → list ObjectId.
Variables id teamId userId : ObjectId.

Local Abbreviation operation := (updateTeamMembership op id teamId userId).

Lemma team_membership_hit s u :
  teamsUnique s id → teamExists s id teamId →
  User s !! userId = Some u →
  id ∈ (organizationId <$> organizationMemberships u) →
  operation s
  = (setUser (<[userId :=
                 withMemberships
                   (filteredPositional (λ t, organizationId t = id)
                      (withMembershipTeams op)) u]> (User s)) s,
     Ok ()).
Proof.
  intros Huniq Hteam Hu Hmem. unfold updateTeamMembership.
  unfold mbind, M_bind, Organization_findOne.
  apply organizationTeamFound_spec in Hteam; [|done]. rewrite Hteam. simpl.
  unfold User_findOneAndUpdate. rewrite Hu.
  by rewrite decide_True.
Qed.

Lemma team_membership_miss s :
  teamsUnique s id →
  ¬ teamExists s id teamId ∨ ¬ isOrganizationMember s userId id →
  operation s = (s, Throw NotFound).
Proof.
  intros Huniq Hmiss. unfold updateTeamMembership.
  unfold mbind, M_bind, Organization_findOne.
  destruct (organizationTeamFound _ teamId) eqn:Hfound; simpl; [|done].
  apply organizationTeamFound_spec in Hfound; [|done].
  destruct Hmiss as [Hno|Hno]; [done|].
  unfold User_findOneAndUpdate.
  destruct (User s !! userId) as [u|] eqn:Hu; [|done].
  rewrite decide_False; [done|].
  intros Hmem. apply Hno. by exists u.
Qed.

Lemma team_membership_NotFound s :
  teamsUnique s id →
  snd (operation s) = Throw NotFound
  ↔ ¬ teamExists s id teamId ∨ ¬ isOrganizationMember s userId id.
Proof.
  intros Huniq. split; [|by intros ->%team_membership_miss].
  intros Hthrow.
  destruct (organizationTeamFound
              (mkOrganizationDoc id <$> Organization s !! id) teamId)
    eqn:Hfound; cycle 1.
  { left. intros Hteam.
    apply organizationTeamFound_spec in Hteam; [congruence|done]. }
  apply organizationTeamFound_spec in Hfound; [|done].
  right. intros (u & Hu & Hmem).
  rewrite (team_membership_hit s u) in Hthrow by done. done.
Qed.
End team_membership.

Lemma addToSet_memberships_idempotent id teamId
    (ms : list IOrganizationMembership) :
  let add := filteredPositional (λ t, organizationId t = id)
               (withMembershipTeams (addToSet teamId)) in
  add (add ms) = add ms.
Proof.
  intros add. apply filteredPositional_fixed.
  intros x (m & -> & _)%list_elem_of_fmap. case_decide as Hm.
  - intros _. unfold withMembershipTeams. simpl.
    by rewrite addToSet_idempotent.
  - done.
Qed.

(** C6: with teams unique by id in the organization, [addUserToTeam]
    raises [NotFound] exactly when the team does not exist under the
    organization or the user holds no membership entry for it.  Otherwise
    it succeeds and writes only that user: the entries for other
    organizations are kept, an entry for this organization lists the team
    afterwards, unchanged if it listed the team already and with the team
    appended if not; adding the same team again changes nothing. *)
Theorem addUserToTeam_spec s id teamId userId :
  teamsUnique s id →
  (snd (addUserToTeam id teamId userId s) = Throw NotFound
   ↔ ¬ teamExists s id teamId ∨ ¬ isOrganizationMember s userId id)
  ∧ (teamExists s id teamId →
     ∀ u, User s !! userId = Some u →
          id ∈ (organizationId <$> organizationMemberships u) →
     ∃ u',
       addUserToTeam id teamId userId s
       = (setUser (<[userId := u']> (User s)) s, Ok ())
       ∧ (∀ (i : nat) m, organizationMemberships u !! i = Some m →
            ∃ m', organizationMemberships u' !! i = Some m'
                  ∧ organizationId m' = organizationId m
                  ∧ (organizationId m ≠ id → m' = m)
                  ∧ (organizationId m = id →
                     teamId ∈ membership_teams m'
                     ∧ (teamId ∈ membership_teams m →
                        membership_teams m' = membership_teams m)
                     ∧ (teamId ∉ membership_teams m →
                        membership_teams m' = membership_teams m ++ [teamId])))
       ∧ length (organizationMemberships u')
         = length (organizationMemberships u)
       ∧ addUserToTeam id teamId userId (setUser (<[userId := u']> (User s)) s)
         = (setUser (<[userId := u']> (User s)) s, Ok ())).
Proof.
  intros Huniq. split.
  { apply (team_membership_NotFound (addToSet teamId)), Huniq. }
  intros Hteam u Hu Hmem.
  set (add := filteredPositional (λ t, organizationId t = id)
                (withMembershipTeams (addToSet teamId))).
  exists (withMemberships add u). split.
  { by apply (team_membership_hit (addToSet teamId)). }
  split.
  { intros i m Hi. simpl. unfold add.
    rewrite filteredPositional_lookup, Hi. simpl.
    eexists. split; [reflexivity|]. case_decide as Hid.
    - simpl. split; [done|]. split; [done|]. intros _.
      split; [apply elem_of_addToSet|].
      split; [apply addToSet_present|apply addToSet_absent].
    - split; [done|]. split; [done|]. done. }
  split.
  { simpl. unfold add, filteredPositional. by rewrite length_fmap. }
  set (s' := setUser (<[userId := withMemberships add u]> (User s)) s).
  assert (User s' !! userId = Some (withMemberships add u)) as Hu'
    by apply lookup_insert_eq.
  assert (addUserToTeam id teamId userId s'
          = (setUser (<[userId := withMemberships add (withMemberships add u)]>
                        (User s')) s', Ok ())) as ->.
  { apply (team_membership_hit (addToSet teamId)); try done.
    simpl. unfold add. by rewrite filteredPositional_fmap. }
  assert (withMemberships add (withMemberships add u) = withMemberships add u)
    as ->.
  { unfold withMemberships. simpl. f_equal.
    apply addToSet_memberships_idempotent. }
  f_equal. by apply setUser_same.
Qed.

Lemma addUserToTeam_spec_witness :
  (teamsUnique exampleStore 100 ∧ teamExists exampleStore 100 101)
  ∧ ∃ u', addUserToTeam 100 101 1 exampleStore
          = (setUser (<[1%N := u']> (User exampleStore)) exampleStore, Ok ()).
Proof.
  assert (teamsUnique exampleStore 100) as Huniq.
  { intros o Ho. vm_compute in Ho. injection Ho as <-.
    simpl. apply NoDup_singleton. }
  assert (teamExists exampleStore 100 101) as Hteam.
  { exists exampleOrganization. split; [reflexivity|]. simpl. left. }
  split; [by split|].
  destruct (proj2 (addUserToTeam_spec exampleStore 100 101 1 Huniq) Hteam
              exampleCreator eq_refl) as (u' & Hrun & _).
  { simpl. left. }
  by exists u'.
Defined.

(** C7: with teams unique by id in the organization, [removeUserFromTeam]
    raises [NotFound] exactly when the team does not exist under the
    organization or the user holds no membership entry for it; for a member
    whose entries for the organization do not list the team it succeeds
    and leaves the store as it was. *)
Theorem removeUserFromTeam_absent_noop s id teamId userId :
  teamsUnique s id →
  (snd (removeUserFromTeam id teamId userId s) = Throw NotFound
   ↔ ¬ teamExists s id teamId ∨ ¬ isOrganizationMember s userId id)
  ∧ (teamExists s id teamId →
     ∀ u, User s !! userId = Some u →
          id ∈ (organizationId <$> organizationMemberships u) →
          (∀ m, m ∈ organizationMemberships u → organizationId m = id →
                teamId ∉ membership_teams m) →
          removeUserFromTeam id teamId userId s = (s, Ok ())).
Proof.
  intros Huniq. split.
  { apply (team_membership_NotFound (pull (λ x, x = teamId))), Huniq. }
  intros Hteam u Hu Hmem Habsent.
  rewrite removeUserFromTeam_shape.
  rewrite (team_membership_hit (pull (λ x, x = teamId)) id teamId userId s u)
    by done.
  f_equal. apply setUser_same. rewrite Hu. f_equal.
  destruct u as [dn em ms]. unfold withMemberships. simpl in *. f_equal.
  symmetry. apply filteredPositional_fixed. intros m Hm Hid.
  destruct m as [oid ts]. unfold withMembershipTeams. simpl in *. f_equal.
  apply pull_absent, Forall_forall. intros x Hx ->.
  by apply (Habsent _ Hm Hid).
Qed.

Lemma removeUserFromTeam_absent_noop_witness :
  (teamsUnique exampleStore 100 ∧ teamExists exampleStore 100 101)
  ∧ removeUserFromTeam 100 101 3 exampleStore = (exampleStore, Ok ()).
Proof.
  assert (teamsUnique exampleStore 100) as Huniq.
  { intros o Ho. vm_compute in Ho. injection Ho as <-.
    simpl. apply NoDup_singleton. }
  assert (teamExists exampleStore 100 101) as Hteam.
  { exists exampleOrganization. split; [reflexivity|]. simpl. left. }
  split; [by split|].
  apply (proj2 (removeUserFromTeam_absent_noop exampleStore 100 101 3 Huniq)
           Hteam exampleMember).
  - reflexivity.
  - simpl. left.
  - simpl. intros m ->%list_elem_of_singleton _. simpl. apply not_elem_of_nil.
Defined.

(** ** Team creation *)

Lemma positional_app_first {A : Type} (P : A → Prop) `{∀ x, Decision (P x)}
    (f : A → A) (l1 l2 : list A) (x : A) :
  Forall (λ y, ¬ P y) l1 → P x →
  positional P f (l1 ++ x :: l2) = l1 ++ f x :: l2.
Proof.
  intros Hl1 Hx. induction Hl1 as [|y l1 Hy _ IH]; simpl.
  - by rewrite decide_True.
  - by rewrite decide_False, IH.
Qed.

Lemma TEAM_ADMIN_scope :
  TEAM_ADMIN ∈ TEAM_ROLES ∧ TEAM_ADMIN ∉ ORGANIZATION_ROLES.
Proof.
  unfold TEAM_ROLES, ORGANIZATION_ROLES. split; [left|].
  intros Hin. repeat (apply elem_of_cons in Hin as [Hin|Hin]; [done|]).
  by apply elem_of_nil in Hin.
Qed.

(** The run of [createTeam] on an existing organization, for an input
    that passes the schema and a generated id new to the organization. *)
Lemma createTeam_existing s id team creatorId name o :
  requiredString (jsGet team "name") = Some name →
  Organization s !! id = Some o →
  nextObjectId s ∉ (team_id <$> teams o) →
  let o' :=
    {| org_name := org_name o; createdAt := createdAt o; updatedAt := now s;
       accessControlList := accessControlList o;
       teams :=
         teams o
         ++ [ {| team_id := nextObjectId s; team_name := name;
                 team_logoPath := castString (jsGet team "logoPath");
                 team_accessControlList := [mkACE creatorId TEAM_ADMIN] |} ];
       projectGroups := projectGroups o |} in
  createTeam id team creatorId s
  = ({| Organization := <[id := o']> (Organization s); User := User s;
        nextObjectId := N.succ (nextObjectId s); now := now s |},
     Ok (mkOrganizationDoc id o')).
Proof.
  intros Hname Ho Hfresh o'.
  set (s0 := {| Organization := Organization s; User := User s;
                nextObjectId := N.succ (nextObjectId s); now := now s |}).
  set (newTeam := {| team_id := nextObjectId s; team_name := name;
                     team_logoPath := castString (jsGet team "logoPath");
                     team_accessControlList := [] |}).
  assert (newTeam ∉ teams o) as Hnew.
  { intros Hin. apply Hfresh.
    by apply (list_elem_of_fmap_2 team_id) in Hin. }
  unfold createTeam, castTeam. rewrite Hname.
  erewrite bind_Ok; [|reflexivity].
  erewrite bind_Ok; [|reflexivity].
  erewrite bind_Ok; cycle 1.
  { apply (findOneAndUpdate_hit id _ _ true s0 o); [exact Ho|done]. }
  cbn [org_id]. unfold setNestedUserRole, setRole.
  erewrite bind_Ok; cycle 1.
  { apply findOneAndUpdate_hit; [apply lookup_insert_eq|].
    simpl. rewrite addToSet_absent by done.
    rewrite fmap_app. apply elem_of_app. right. left. }
  assert (positional (λ t, team_id t = nextObjectId s)
            (withTeamACL (upsertACE creatorId TEAM_ADMIN))
            (addToSet newTeam (teams o)) = teams o') as Hteams.
  { rewrite addToSet_absent by done.
    rewrite positional_app_first; [done| |done].
    apply Forall_forall. intros t Ht Hid. apply Hfresh.
    rewrite <- Hid. by apply list_elem_of_fmap_2. }
  subst s0 newTeam. unfold mret, M_ret, setOrganization, touch, onACL, withTeams.
  cbn [teams org_name createdAt updatedAt accessControlList projectGroups
       Organization User nextObjectId now].
  by rewrite Hteams, insert_insert_eq.
Qed.

(** C5, as the code has it: for a team input that passes the team schema
    (a non-empty [name]) and a generated id that is new among the teams of
    the organization, [createTeam] on an existing organization appends the
    new team with exactly one access-control entry, the creator's
    [TEAM_ADMIN], which is a team role and not an organization role, and
    returns the stored organization; on an unknown organization it raises
    [NotFound] and writes no document. *)
Theorem createTeam_grants_team_admin s id team creatorId name :
  requiredString (jsGet team "name") = Some name →
  (∀ o, Organization s !! id = Some o →
        nextObjectId s ∉ (team_id <$> teams o)) →
  (∀ o, Organization s !! id = Some o →
     ∃ s' org,
       createTeam id team creatorId s = (s', Ok org)
       ∧ org_id org = id
       ∧ Organization s' !! id = Some (org_fields org)
       ∧ teams org
         = teams o
           ++ [ {| team_id := nextObjectId s; team_name := name;
                   team_logoPath := castString (jsGet team "logoPath");
                   team_accessControlList := [mkACE creatorId TEAM_ADMIN] |} ]
       ∧ TEAM_ADMIN ∈ TEAM_ROLES ∧ TEAM_ADMIN ∉ ORGANIZATION_ROLES)
  ∧ (Organization s !! id = None →
     ∃ s', createTeam id team creatorId s = (s', Throw NotFound)
           ∧ Organization s' = Organization s ∧ User s' = User s).
Proof.
  intros Hname Hfresh. split.
  - intros o Ho.
    rewrite (createTeam_existing s id team creatorId name o Hname Ho
               (Hfresh o Ho)).
    eexists _, _. split; [reflexivity|]. split; [done|].
    split; [apply lookup_insert_eq|]. split; [done|apply TEAM_ADMIN_scope].
  - intros Hnone. unfold createTeam, castTeam. rewrite Hname.
    erewrite bind_Ok; [|reflexivity].
    erewrite bind_Ok; [|reflexivity].
    erewrite bind_Ok; cycle 1.
    { apply findOneAndUpdate_miss. simpl. congruence. }
    eexists. split; [reflexivity|done].
Qed.

Lemma createTeam_grants_team_admin_witness :
  (requiredString (jsGet {[ "name" := JString "team2" ]} "name") = Some "team2"
   ∧ ∀ o, Organization exampleStore !! 100%N = Some o →
          nextObjectId exampleStore ∉ (team_id <$> teams o))
  ∧ ∃ s' org,
      createTeam 100 {[ "name" := JString "team2" ]} 3 exampleStore = (s', Ok org)
      ∧ teams org
        = [ exampleTeam;
            {| team_id := 102; team_name := "team2"; team_logoPath := None;
               team_accessControlList := [mkACE 3 TEAM_ADMIN] |} ].
Proof.
  assert (∀ o, Organization exampleStore !! 100%N = Some o →
               nextObjectId exampleStore ∉ (team_id <$> teams o)) as Hfresh.
  { intros o Ho. vm_compute in Ho. injection Ho as <-. simpl.
    intros Hin. apply list_elem_of_singleton in Hin. discriminate. }
  assert (requiredString (jsGet {[ "name" := JString "team2" ]} "name")
          = Some "team2") as Hname by reflexivity.
  split; [split; [exact Hname|exact Hfresh]|].
  destruct (proj1 (createTeam_grants_team_admin exampleStore 100
                     {[ "name" := JString "team2" ]} 3 "team2"
                     Hname Hfresh) exampleOrganization eq_refl)
    as (s' & org & Hrun & _ & _ & Hteams & _).
  exists s', org. split; [exact Hrun|]. rewrite Hteams. reflexivity.
Defined.

(** C5 as stated fails on an input without a name: the organization
    exists, and [createTeam] raises [ValidationError] before any write, so
    no team is created and no entry is granted; on an unknown organization
    the same input raises [ValidationError], not [NotFound]. *)
Lemma createTeam_unnamed_counterexample :
  Organization exampleStore !! 100%N = Some exampleOrganization
  ∧ snd (createTeam 100 {[ "logoPath" := JString "/logo.png" ]} 3 exampleStore)
    = Throw ValidationError
  ∧ Organization
      (fst (createTeam 100 {[ "logoPath" := JString "/logo.png" ]} 3 exampleStore))
      !! 100%N = Some exampleOrganization
  ∧ Organization exampleStore !! 999%N = None
  ∧ snd (createTeam 999 {[ "logoPath" := JString "/logo.png" ]} 3 exampleStore)
    ≠ Throw NotFound.
Proof. vm_compute. repeat split; done. Qed.

(** ** Roles through teams *)

Lemma elem_of_effectiveRoles s orgId (user : IUserDoc) m o r :
  Organization s !! orgId = Some o →
  r ∈ effectiveRoles s orgId user m
  ↔ (∃ a, a ∈ accessControlList o ∧ userId a = user_id user ∧ role a = r)
    ∨ (∃ t a, team_id t ∈ membership_teams m ∧ t ∈ teams o
              ∧ a ∈ team_accessControlList t ∧ role a = r).
Proof.
  intros Ho. unfold effectiveRoles. rewrite Ho, elem_of_app.
  apply Morphisms_Prop.or_iff_morphism.
  - rewrite list_elem_of_fmap. split.
    + intros (a & -> & [Hu Ha]%list_elem_of_filter). by exists a.
    + intros (a & Ha & Hu & <-). exists a. split; [done|].
      by apply list_elem_of_filter.
  - rewrite list_elem_of_bind. split.
    + intros (teamId & Hr & HteamId).
      apply list_elem_of_bind in Hr as (t & Hr & [<- Ht]%list_elem_of_filter).
      apply list_elem_of_fmap in Hr as (a & -> & Ha). by exists t, a.
    + intros (t & a & HteamId & Ht & Ha & <-).
      exists (team_id t). split; [|done].
      apply list_elem_of_bind. exists t. split.
      * by apply list_elem_of_fmap_2.
      * by apply list_elem_of_filter.
Qed.

Lemma isAuthorized_roles s orgId r (user : IUserDoc) m :
  findMembership orgId user = Some m →
  isAuthorized s orgId (Some [r]) user = true
  ↔ r ∈ effectiveRoles s orgId user m.
Proof.
  intros Hm. unfold isAuthorized. rewrite Hm, bool_decide_eq_true.
  rewrite Exists_exists. split.
  - by intros (r' & Hr' & ->%list_elem_of_singleton).
  - intros Hr. exists r. split; [done|]. by left.
Qed.

(** The entry [setTeamRole] writes is gone after [removeTeamRole], and so
    is any earlier entry of the same subject. *)
Lemma removeACE_upsertACE subjectId r acl :
  removeACE subjectId (upsertACE subjectId r acl)
  = filter (λ a, userId a ≠ subjectId) acl.
Proof.
  unfold removeACE, pull, upsertACE. rewrite filter_app.
  rewrite filter_cons_False by (simpl; tauto).
  rewrite filter_nil, app_nil_r.
  rewrite list_filter_filter. apply list_filter_iff. tauto.
Qed.

(** C3, as the model has it: for a team of the organization and a user
    whose membership lists the team, [setTeamRole] succeeds and the user is
    then authorized for the role; [removeTeamRole] succeeds, and the user
    is not authorized for the role afterwards if the user was not before
    the role was set on the team. *)
Theorem team_role_propagation s id teamId r (user : IUserDoc) :
  teamExists s id teamId →
  (∃ m, findMembership id user = Some m ∧ teamId ∈ membership_teams m) →
  ∃ s1 org s2,
    setTeamRole id r teamId s = (s1, Ok org)
    ∧ isAuthorized s1 id (Some [r]) user = true
    ∧ removeTeamRole id teamId s1 = (s2, Ok ())
    ∧ (isAuthorized s id (Some [r]) user = false →
       isAuthorized s2 id (Some [r]) user = false).
Proof.
  intros (o & Ho & Hteam) (m & Hm & HteamId).
  set (P := λ t : ITeamDoc, team_id t = teamId).
  set (f := withTeamACL (upsertACE teamId r)).
  set (g := withTeamACL (removeACE teamId)).
  destruct (positional_split P f (teams o)) as (l1 & x & l2 & Hsplit & Hl1 & Hx & Hf).
  { apply Exists_exists. apply list_elem_of_fmap in Hteam as (t & -> & Ht).
    by exists t. }
  set (o1 := touch (now s) (onACL (Some (NestedTeams, teamId))
                              (upsertACE teamId r) o)).
  set (s1 := setOrganization (<[id := o1]> (Organization s)) s).
  assert (teams o1 = l1 ++ f x :: l2) as Hteams1 by exact Hf.
  set (o2 := touch (now s1) (onACL (Some (NestedTeams, teamId))
                               (removeACE teamId) o1)).
  set (s2 := setOrganization (<[id := o2]> (Organization s1)) s1).
  assert (teams o2 = l1 ++ g (f x) :: l2) as Hteams2.
  { unfold o2. simpl. fold P g. change (teams o1) with (teams o1).
    replace (positional P f (teams o)) with (l1 ++ f x :: l2).
    by apply positional_app_first. }
  assert (Organization s1 !! id = Some o1) as Ho1 by apply lookup_insert_eq.
  assert (Organization s2 !! id = Some o2) as Ho2 by apply lookup_insert_eq.
  exists s1, (mkOrganizationDoc id o1), s2. split.
  { unfold setTeamRole, setRole. erewrite bind_Ok; cycle 1.
    { by apply findOneAndUpdate_hit. }
    reflexivity. }
  split.
  { apply (isAuthorized_roles _ _ _ _ m Hm).
    apply (elem_of_effectiveRoles _ _ _ _ o1 _ Ho1). right.
    exists (f x), (mkACE teamId r). split; [simpl; by rewrite Hx|].
    split; [rewrite Hteams1; apply elem_of_app; right; left|].
    split; [|done]. simpl. unfold upsertACE. apply elem_of_app. right. left. }
  split.
  { unfold removeTeamRole, removeRole. erewrite bind_Ok; cycle 1.
    { apply findOneAndUpdate_hit; [done|]. simpl. fold P f. rewrite Hf.
      rewrite fmap_app, fmap_cons. apply elem_of_app. right.
      apply elem_of_cons. left. symmetry. exact Hx. }
    reflexivity. }
  intros Hbefore. apply not_true_is_false. intros Hafter.
  apply not_true_iff_false in Hbefore. apply Hbefore.
  apply (isAuthorized_roles _ _ _ _ m Hm).
  apply (isAuthorized_roles _ _ _ _ m Hm) in Hafter.
  apply (elem_of_effectiveRoles _ _ _ _ o _ Ho).
  apply (elem_of_effectiveRoles _ _ _ _ o2 _ Ho2) in Hafter.
  destruct Hafter as [Hdirect|(t & a & Hmember & Ht & Ha & Hr)]; [by left|].
  right. rewrite Hteams2 in Ht. rewrite Hsplit.
  apply elem_of_app in Ht as [Ht|[->|Ht]%elem_of_cons].
  - exists t, a. split; [done|]. split; [|done]. apply elem_of_app. by left.
  - exists x, a. split; [done|]. split; [apply elem_of_app; right; left|].
    split; [|done]. simpl in Ha. rewrite removeACE_upsertACE in Ha.
    by apply list_elem_of_filter in Ha as [_ Ha].
  - exists t, a. split; [done|]. split; [|done].
    apply elem_of_app. right. by right.
Qed.

Lemma team_role_propagation_witness :
  (teamExists exampleStore 100 101
   ∧ ∃ m, findMembership 100 (mkUserDoc 1 exampleCreator) = Some m
          ∧ 101%N ∈ membership_teams m)
  ∧ ∃ s1 org s2,
      setTeamRole 100 ORG_ADMIN 101 exampleStore = (s1, Ok org)
      ∧ isAuthorized s1 100 (Some [ORG_ADMIN]) (mkUserDoc 1 exampleCreator) = true
      ∧ removeTeamRole 100 101 s1 = (s2, Ok ())
      ∧ isAuthorized s2 100 (Some [ORG_ADMIN]) (mkUserDoc 1 exampleCreator)
        = false.
Proof.
  assert (teamExists exampleStore 100 101) as Hteam.
  { exists exampleOrganization. split; [reflexivity|]. simpl. left. }
  assert (∃ m, findMembership 100 (mkUserDoc 1 exampleCreator) = Some m
               ∧ 101%N ∈ membership_teams m) as Hmember.
  { exists (mkMembership 100 [101%N]). split; [reflexivity|]. simpl. left. }
  split; [by split|].
  destruct (team_role_propagation exampleStore 100 101 ORG_ADMIN
              (mkUserDoc 1 exampleCreator) Hteam Hmember)
    as (s1 & org & s2 & Hset & Hyes & Hremove & Hno).
  exists s1, org, s2. repeat split; try done.
  apply Hno. vm_compute. reflexivity.
Defined.

(** C3 as stated fails for a user who holds the role on the
    organization's own list: the creator of the example organization is
    [ORG_FULL_ADMIN] there and a member of the team; after [setTeamRole]
    and [removeTeamRole] of [ORG_FULL_ADMIN] on the team the creator is
    still authorized for it. *)
Lemma removeTeamRole_direct_grant_counterexample :
  teamExists exampleStore 100 101
  ∧ (∃ m, findMembership 100 (mkUserDoc 1 exampleCreator) = Some m
          ∧ 101%N ∈ membership_teams m)
  ∧ ORG_FULL_ADMIN ∈ ORGANIZATION_ROLES
  ∧ ∃ s1 org s2,
      setTeamRole 100 ORG_FULL_ADMIN 101 exampleStore = (s1, Ok org)
      ∧ removeTeamRole 100 101 s1 = (s2, Ok ())
      ∧ isAuthorized s2 100 (Some [ORG_FULL_ADMIN]) (mkUserDoc 1 exampleCreator)
        = true.
Proof.
  split.
  { exists exampleOrganization. split; [reflexivity|]. simpl. left. }
  split.
  { exists (mkMembership 100 [101%N]). split; [reflexivity|]. simpl. left. }
  split; [left|].
  eexists _, _, _. split; [vm_compute; reflexivity|].
  split; vm_compute; reflexivity.
Qed.

(** ** Teams stay unique by identifier

    The three operations that write the array of teams keep its
    identifiers distinct, [createTeam] under a generated id that is new to
    the organization. *)

Lemma createTeam_teamsUnique s id team creatorId name o :
  requiredString (jsGet team "name") = Some name →
  Organization s !! id = Some o →
  nextObjectId s ∉ (team_id <$> teams o) →
  teamsUnique s id →
  teamsUnique (fst (createTeam id team creatorId s)) id.
Proof.
  intros Hname Ho Hfresh Huniq.
  rewrite (createTeam_existing s id team creatorId name o Hname Ho Hfresh).
  intros o'. simpl. rewrite lookup_insert_eq. intros [= <-]. simpl.
  rewrite fmap_app. apply NoDup_app. split_and!.
  - by apply Huniq.
  - intros x Hx ->%list_elem_of_singleton. done.
  - apply NoDup_singleton.
Qed.

Lemma updateTeam_teamsUnique s id teamId team :
  teamsUnique s id → teamsUnique (fst (updateTeam id teamId team s)) id.
Proof.
  intros Huniq. unfold updateTeam, Organization_findOneAndUpdate.
  destruct (Organization s !! id) as [o|] eqn:Ho; [|done].
  case_decide; [|done].
  intros o'. simpl. rewrite lookup_insert_eq. intros [= <-]. simpl.
  rewrite positional_fmap by done. by apply Huniq.
Qed.

Lemma deleteTeam_teamsUnique s id teamId :
  teamsUnique s id → teamsUnique (fst (deleteTeam id teamId s)) id.
Proof.
  intros Huniq. unfold deleteTeam, User_updateMany, mbind, M_bind.
  unfold Organization_findOneAndUpdate.
  destruct (Organization s !! id) as [o|] eqn:Ho; [|done].
  case_decide; [|done].
  intros o'. simpl. rewrite lookup_insert_eq. intros [= <-]. simpl.
  eapply sublist_NoDup; [by apply Huniq|].
  apply fmap_sublist, sublist_filter.
Qed.


(** * Further properties of the team sub-model *)

(** ** The two membership operations, whatever the outcome *)

(** Every run of the code shared by [addUserToTeam] and
    [removeUserFromTeam] either raises [NotFound] without a write, or
    found exactly one team with the id and rewrites the one user. *)
Lemma updateTeamMembership_cases op id teamId userId s :
  updateTeamMembership op id teamId userId s = (s, Throw NotFound)
  ∨ ∃ o u,
      Organization s !! id = Some o
      ∧ length (filter (λ t, team_id t = teamId) (teams o)) = 1%nat
      ∧ User s !! userId = Some u
      ∧ id ∈ (organizationId <$> organizationMemberships u)
      ∧ updateTeamMembership op id teamId userId s
        = (setUser (<[userId :=
                       withMemberships
                         (filteredPositional (λ t, organizationId t = id)
                            (withMembershipTeams op)) u]> (User s)) s,
           Ok ()).
Proof.
  unfold updateTeamMembership, mbind, M_bind, Organization_findOne.
  unfold organizationTeamFound, User_findOneAndUpdate.
  destruct (Organization s !! id) as [o|] eqn:Ho; simpl; [|by left].
  case_bool_decide as Hone; simpl; [|by left].
  destruct (User s !! userId) as [u|] eqn:Hu; [|by left].
  case_decide as Hmem; [|by left].
  right. by exists o, u.
Qed.

Lemma length_filter_one_elem_of {A B : Type} `{EqDecision B} (f : A → B)
    (y : B) (l : list A) :
  length (filter (λ x, f x = y) l) = 1%nat → y ∈ (f <$> l).
Proof.
  destruct (filter (λ x, f x = y) l) as [|x k] eqn:Hf; [done|]. intros _.
  assert (x ∈ filter (λ x, f x = y) l) as Hx by (rewrite Hf; left).
  apply list_elem_of_filter in Hx as [<- Hx]. by apply list_elem_of_fmap_2.
Qed.

Lemma filteredPositional_compose {A : Type} (P : A → Prop)
    `{∀ x, Decision (P x)} (f g : A → A) (l : list A) :
  (∀ x, P x → P (f x)) →
  filteredPositional P g (filteredPositional P f l)
  = filteredPositional P (λ x, g (f x)) l.
Proof.
  intros HP. unfold filteredPositional. rewrite <- list_fmap_compose.
  apply list_fmap_ext. intros i x _. simpl.
  destruct (decide (P x)) as [Hx|Hx].
  - by rewrite decide_True by by apply HP.
  - by rewrite decide_False.
Qed.

Lemma updateTeamMembership_frame op id teamId userId s :
  onlyTeamIdsOf userId s (fst (updateTeamMembership op id teamId userId s)).
Proof.
  unfold onlyTeamIdsOf.
  destruct (updateTeamMembership_cases op id teamId userId s)
    as [->|(o & u & _ & _ & Hu & _ & ->)]; simpl.
  { split_and!; try done. destruct (User s !! userId) as [u|]; [|done].
    by exists u. }
  split_and!; try done.
  - intros other Hother. by apply lookup_insert_ne.
  - rewrite Hu. eexists. split; [apply lookup_insert_eq|].
    simpl. split_and!; try done. by apply filteredPositional_fmap.
Qed.

(** X1: [addUserToTeam] and [removeUserFromTeam], whether they succeed or
    raise, leave the organization collection, the id generator, the clock
    and every other user as they were; the user they address keeps the
    same membership entries, for the same organizations in the same order,
    and the same profile fields.  Neither creates or removes a membership
    entry. *)
Theorem team_membership_frame id teamId userId s :
  onlyTeamIdsOf userId s (fst (addUserToTeam id teamId userId s))
  ∧ onlyTeamIdsOf userId s (fst (removeUserFromTeam id teamId userId s)).
Proof.
  rewrite addUserToTeam_shape, removeUserFromTeam_shape.
  split; apply updateTeamMembership_frame.
Qed.

(** ** Removing a user from a team *)




(** ** Adding and removing compose *)

Lemma pull_addToSet_absent (teamId : ObjectId) (l : list ObjectId) :
  teamId ∉ l → pull (λ x, x = teamId) (addToSet teamId l) = l.
Proof.
  intros Hno. rewrite addToSet_absent by done. unfold pull.
  rewrite filter_app, filter_cons_False by (simpl; tauto).
  rewrite filter_nil, app_nil_r.
  apply (pull_absent (λ x, x = teamId)), Forall_forall.
  intros x Hx ->. done.
Qed.

(** X3: for a member whose entries for the organization do not list the
    team (teams unique by id, team existing), [addUserToTeam] followed by
    [removeUserFromTeam] gives back the store it started from. *)
Theorem addUserToTeam_removeUserFromTeam s id teamId userId u :
  teamsUnique s id → teamExists s id teamId →
  User s !! userId = Some u →
  id ∈ (organizationId <$> organizationMemberships u) →
  (∀ m, m ∈ organizationMemberships u → organizationId m = id →
        teamId ∉ membership_teams m) →
  ∃ s1,
    addUserToTeam id teamId userId s = (s1, Ok ())
    ∧ s1 ≠ s
    ∧ removeUserFromTeam id teamId userId s1 = (s, Ok ()).
Proof.
  intros Huniq Hteam Hu Hmem Habsent.
  set (P := λ t : IOrganizationMembership, organizationId t = id).
  set (add := filteredPositional P (withMembershipTeams (addToSet teamId))).
  set (remove := filteredPositional P
                   (withMembershipTeams (pull (λ x, x = teamId)))).
  set (s1 := setUser (<[userId := withMemberships add u]> (User s)) s).
  assert (User s1 !! userId = Some (withMemberships add u)) as Hu1
    by apply lookup_insert_eq.
  exists s1. split.
  { rewrite addUserToTeam_shape. by apply team_membership_hit. }
  split.
  { intros Heq. rewrite <- Heq in Hu. rewrite Hu1 in Hu.
    injection Hu as Hu. rewrite <- Hu in Hmem. simpl in Hmem.
    apply list_elem_of_fmap in Hmem as (m & Hid & Hm).
    pose proof Hm as (m0 & -> & Hm0)%list_elem_of_fmap.
    rewrite decide_True in Hid, Hm by (case_decide; simpl in *; congruence).
    apply (Habsent (withMembershipTeams (addToSet teamId) m0)).
    - by rewrite <- Hu.
    - done.
    - simpl. apply elem_of_addToSet. }
  assert (removeUserFromTeam id teamId userId s1
          = (setUser (<[userId := withMemberships remove
                                    (withMemberships add u)]> (User s1)) s1,
             Ok ())) as ->.
  { apply (team_membership_hit (pull (λ x, x = teamId))); try done.
    simpl. unfold add. by rewrite filteredPositional_fmap. }
  assert (withMemberships remove (withMemberships add u) = u) as ->.
  { destruct u as [dn em ms]. unfold withMemberships. simpl in *. f_equal.
    unfold remove, add. rewrite filteredPositional_compose by done.
    apply filteredPositional_fixed. intros m Hm Hid.
    destruct m as [oid ts]. unfold withMembershipTeams. simpl. f_equal.
    apply pull_addToSet_absent. by apply (Habsent _ Hm Hid). }
  f_equal. unfold s1, setUser. simpl. rewrite insert_insert_eq.
  by apply setUser_same.
Qed.

Lemma addUserToTeam_removeUserFromTeam_witness :
  (teamsUnique exampleStore 100 ∧ teamExists exampleStore 100 101
   ∧ User exampleStore !! 3%N = Some exampleMember
   ∧ 100%N ∈ (organizationId <$> organizationMemberships exampleMember)
   ∧ ∀ m, m ∈ organizationMemberships exampleMember →
          organizationId m = 100%N → 101%N ∉ membership_teams m)
  ∧ ∃ s1, addUserToTeam 100 101 3 exampleStore = (s1, Ok ())
          ∧ removeUserFromTeam 100 101 3 s1 = (exampleStore, Ok ()).
Proof.
  assert (teamsUnique exampleStore 100) as Huniq.
  { intros o Ho. vm_compute in Ho. injection Ho as <-.
    simpl. apply NoDup_singleton. }
  assert (teamExists exampleStore 100 101) as Hteam.
  { exists exampleOrganization. split; [reflexivity|]. simpl. left. }
  assert (100%N ∈ (organizationId <$> organizationMemberships exampleMember))
    as Hmem by (simpl; left).
  assert (∀ m, m ∈ organizationMemberships exampleMember →
               organizationId m = 100%N → 101%N ∉ membership_teams m)
    as Habsent.
  { simpl. intros m ->%list_elem_of_singleton _. simpl. apply not_elem_of_nil. }
  split; [by split_and!|].
  destruct (addUserToTeam_removeUserFromTeam exampleStore 100 101 3
              exampleMember Huniq Hteam eq_refl Hmem Habsent)
    as (s1 & Hadd & _ & Hremove).
  by exists s1.
Defined.

(** ** The existence guard *)

Lemma updateTeamMembership_not_one op id teamId userId s :
  (∀ o, Organization s !! id = Some o →
        length (filter (λ t, team_id t = teamId) (teams o)) ≠ 1%nat) →
  updateTeamMembership op id teamId userId s = (s, Throw NotFound).
Proof.
  intros Hnot.
  destruct (updateTeamMembership_cases op id teamId userId s)
    as [->|(o & u & Ho & Hone & _)]; [done|].
  by destruct (Hnot o Ho).
Qed.

(** X4: the guard of [addUserToTeam] and [removeUserFromTeam] asks for
    exactly one team with the id.  On an organization document in which
    the id occurs more than once the team exists, and still both raise
    [NotFound], for every user, without a write. *)
Theorem team_membership_duplicate_team s id teamId userId o :
  Organization s !! id = Some o →
  (1 < length (filter (λ t, team_id t = teamId) (teams o)))%nat →
  teamExists s id teamId
  ∧ addUserToTeam id teamId userId s = (s, Throw NotFound)
  ∧ removeUserFromTeam id teamId userId s = (s, Throw NotFound).
Proof.
  intros Ho Hmany. split.
  { exists o. split; [done|].
    destruct (filter (λ t, team_id t = teamId) (teams o)) as [|t k] eqn:Hf;
      [simpl in Hmany; lia|].
    assert (t ∈ filter (λ t, team_id t = teamId) (teams o)) as Ht
      by (rewrite Hf; left).
    apply list_elem_of_filter in Ht as [<- Ht]. by apply list_elem_of_fmap_2. }
  rewrite addUserToTeam_shape, removeUserFromTeam_shape.
  split; apply updateTeamMembership_not_one; intros o' Ho';
    rewrite Ho in Ho'; injection Ho' as <-; lia.
Qed.

Lemma team_membership_duplicate_team_witness :
  (Organization duplicateTeamsStore !! 100%N
   = Some (withTeams (λ ts, ts ++ [exampleTeam]) exampleOrganization)
   ∧ (1 < length (filter (λ t, team_id t = 101%N)
                    (teams (withTeams (λ ts, ts ++ [exampleTeam])
                              exampleOrganization))))%nat)
  ∧ addUserToTeam 100 101 3 duplicateTeamsStore
    = (duplicateTeamsStore, Throw NotFound).
Proof.
  assert (1 < length (filter (λ t, team_id t = 101%N)
                        (teams (withTeams (λ ts, ts ++ [exampleTeam])
                                  exampleOrganization))))%nat as Hmany
    by (vm_compute; lia).
  split; [split; [reflexivity|exact Hmany]|].
  exact (proj1 (proj2 (team_membership_duplicate_team duplicateTeamsStore
                         100 101 3 _ eq_refl Hmany))).
Defined.

(** ** Invariants of the membership entries *)

Lemma updateTeamMembership_sets op id teamId userId s :
  (∀ l, NoDup l → NoDup (op l)) →
  teamIdsAreSets s →
  teamIdsAreSets (fst (updateTeamMembership op id teamId userId s)).
Proof.
  intros Hop Hsets.
  destruct (updateTeamMembership_cases op id teamId userId s)
    as [->|(o & u & _ & _ & Hu & _ & ->)]; [done|].
  intros other u' m'. simpl. rewrite lookup_insert.
  case_decide as Hother; [|by apply Hsets].
  intros [= <-]. simpl. unfold filteredPositional.
  intros (m & -> & Hm)%list_elem_of_fmap.
  case_decide; [|by eapply Hsets]. simpl. apply Hop. by eapply Hsets.
Qed.

(** X5: the team ids of a membership entry stay a set.  If no entry of any
    user lists a team twice, that is still so after [addUserToTeam], after
    [removeUserFromTeam] and after [deleteTeam], whatever their outcome. *)
Theorem team_ids_stay_sets s id teamId userId :
  teamIdsAreSets s →
  teamIdsAreSets (fst (addUserToTeam id teamId userId s))
  ∧ teamIdsAreSets (fst (removeUserFromTeam id teamId userId s))
  ∧ teamIdsAreSets (fst (deleteTeam id teamId s)).
Proof.
  intros Hsets. rewrite addUserToTeam_shape, removeUserFromTeam_shape.
  split_and!.
  - apply updateTeamMembership_sets; [|done]. intros l. apply NoDup_addToSet.
  - apply updateTeamMembership_sets; [|done]. intros l. apply NoDup_filter.
  - rewrite deleteTeam_users. intros other u' m'. simpl.
    rewrite lookup_fmap.
    destruct (User s !! other) as [u|] eqn:Hu; [|done]. simpl.
    intros [= <-]. case_decide; [|by eapply Hsets]. simpl.
    unfold filteredPositional. intros (m & -> & Hm)%list_elem_of_fmap.
    case_decide; [|by eapply Hsets]. simpl. apply NoDup_filter.
    by eapply Hsets.
Qed.

Lemma team_ids_stay_sets_witness :
  teamIdsAreSets exampleStore
  ∧ teamIdsAreSets (fst (addUserToTeam 100 101 1 exampleStore)).
Proof.
  assert (teamIdsAreSets exampleStore) as Hsets.
  { assert (map_Forall
              (λ _ u, Forall (λ m, NoDup (membership_teams m))
                        (organizationMemberships u))
              (User exampleStore)) as Hall
      by (refine (bool_decide_unpack _ _); vm_compute; exact I).
    intros userId u m Hu Hm.
    pose proof (Hall userId u Hu) as Hu'. simpl in Hu'.
    rewrite Forall_forall in Hu'. by apply Hu'. }
  split; [exact Hsets|].
  exact (proj1 (team_ids_stay_sets exampleStore 100 101 1 Hsets)).
Defined.

Lemma updateTeamMembership_noDangling op id teamId userId s :
  (∀ l x, x ∈ op l → x ∈ l ∨ x = teamId) →
  noDanglingTeams s id →
  noDanglingTeams (fst (updateTeamMembership op id teamId userId s)) id.
Proof.
  intros Hop Hvalid.
  destruct (updateTeamMembership_cases op id teamId userId s)
    as [->|(o & u & Ho & Hone & Hu & _ & ->)]; [done|].
  assert (teamExists s id teamId) as Hteam.
  { exists o. split; [done|]. by apply length_filter_one_elem_of. }
  intros other u' m' t. simpl. rewrite lookup_insert.
  case_decide as Hother; [|by apply Hvalid].
  intros [= <-]. simpl. unfold filteredPositional.
  intros (m & -> & Hm)%list_elem_of_fmap.
  case_decide as Hid; [|by eapply Hvalid]. simpl. intros _ Ht.
  destruct (Hop _ _ Ht) as [Hold| ->]; [|done].
  by eapply (Hvalid userId u m).
Qed.

Lemma deleteTeam_other_teams s id teamId t :
  t ≠ teamId → teamExists s id t →
  teamExists (fst (deleteTeam id teamId s)) id t.
Proof.
  intros Hne (o & Ho & Ht). rewrite deleteTeam_users. simpl.
  unfold Organization_findOneAndUpdate. rewrite Ho.
  case_decide; simpl; [|by exists o].
  eexists. split; [apply lookup_insert_eq|]. simpl.
  apply list_elem_of_fmap in Ht as (x & -> & Hx).
  apply list_elem_of_fmap_2. unfold pull. apply list_elem_of_filter.
  split; [|done]. simpl. congruence.
Qed.

(** X6: team references stay valid.  If every team id listed in a
    membership entry for the organization is the id of a team of that
    organization, that is still so after [addUserToTeam] (its guard lets
    only an existing team in), after [removeUserFromTeam], and after
    [deleteTeam] (its cascade takes the deleted id out of every entry). *)
Theorem team_references_stay_valid s id teamId userId :
  noDanglingTeams s id →
  noDanglingTeams (fst (addUserToTeam id teamId userId s)) id
  ∧ noDanglingTeams (fst (removeUserFromTeam id teamId userId s)) id
  ∧ noDanglingTeams (fst (deleteTeam id teamId s)) id.
Proof.
  intros Hvalid. rewrite addUserToTeam_shape, removeUserFromTeam_shape.
  split_and!.
  - apply updateTeamMembership_noDangling; [|done]. intros l x.
    unfold addToSet. case_decide; [by left|].
    intros [?|Hx]%elem_of_app; [by left|].
    apply list_elem_of_singleton in Hx. by right.
  - apply updateTeamMembership_noDangling; [|done]. intros l x.
    unfold pull. intros [_ ?]%list_elem_of_filter. by left.
  - intros other u' m' t Hu' Hm' Hid Ht.
    rewrite deleteTeam_users in Hu'. simpl in Hu'.
    rewrite lookup_fmap in Hu'.
    destruct (User s !! other) as [u|] eqn:Hu; [|done]. simpl in Hu'.
    injection Hu' as <-. case_decide as Hmem; cycle 1.
    { exfalso. apply Hmem. unfold hasMembership. rewrite <- Hid.
      by apply list_elem_of_fmap_2. }
    simpl in Hm'. unfold filteredPositional in Hm'.
    apply list_elem_of_fmap in Hm' as (m & -> & Hm).
    case_decide as Hm0; [|done]. simpl in Ht. unfold pull in Ht.
    apply list_elem_of_filter in Ht as [Hne Ht].
    apply deleteTeam_other_teams; [done|].
    by apply (Hvalid other u m t).
Qed.

Lemma team_references_stay_valid_witness :
  noDanglingTeams exampleStore 100
  ∧ noDanglingTeams (fst (deleteTeam 100 101 exampleStore)) 100.
Proof.
  assert (noDanglingTeams exampleStore 100) as Hvalid.
  { assert (map_Forall
              (λ _ u, Forall (λ m, Forall (λ t, t = 101%N) (membership_teams m))
                        (organizationMemberships u))
              (User exampleStore)) as Hall
      by (refine (bool_decide_unpack _ _); vm_compute; exact I).
    intros userId u m t Hu Hm _ Ht.
    pose proof (Hall userId u Hu) as Hu'. simpl in Hu'.
    rewrite Forall_forall in Hu'. specialize (Hu' m Hm).
    rewrite Forall_forall in Hu'. rewrite (Hu' t Ht).
    exists exampleOrganization. split; [reflexivity|]. simpl. left. }
  split; [exact Hvalid|].
  exact (proj2 (proj2 (team_references_stay_valid exampleStore 100 101 1 Hvalid))).
Defined.

(** ** Team deletion, further *)

(** X7: the cascade of [deleteTeam] on the users, whether or not the team
    or the organization exists.  Every user keeps the profile fields and
    the membership entries; an entry for another organization is
    untouched; an entry for this organization keeps its other team ids in
    their order and loses the deleted one. *)
Theorem deleteTeam_memberships s id teamId userId u :
  User s !! userId = Some u →
  ∃ u',
    User (fst (deleteTeam id teamId s)) !! userId = Some u'
    ∧ displayName u' = displayName u
    ∧ email u' = email u
    ∧ length (organizationMemberships u') = length (organizationMemberships u)
    ∧ ∀ (i : nat) m, organizationMemberships u !! i = Some m →
        ∃ m', organizationMemberships u' !! i = Some m'
              ∧ organizationId m' = organizationId m
              ∧ (organizationId m ≠ id → m' = m)
              ∧ (organizationId m = id →
                 membership_teams m'
                 = filter (λ x, x ≠ teamId) (membership_teams m)).
Proof.
  intros Hu. rewrite deleteTeam_users. simpl. rewrite lookup_fmap, Hu. simpl.
  eexists. split; [reflexivity|]. case_decide as Hmem; simpl.
  - split_and!; try done.
    + unfold filteredPositional. by rewrite length_fmap.
    + intros i m Hi. by apply cascade_entries.
  - split_and!; try done. intros i m Hi. exists m. split_and!; try done.
    intros Hid. exfalso. apply Hmem. unfold hasMembership. rewrite <- Hid.
    apply list_elem_of_fmap_2. by eapply list_elem_of_lookup_2.
Qed.

Lemma deleteTeam_memberships_witness :
  User exampleStore !! 1%N = Some exampleCreator
  ∧ ∃ u', User (fst (deleteTeam 100 101 exampleStore)) !! 1%N = Some u'
          ∧ length (organizationMemberships u') = 1%nat.
Proof.
  split; [reflexivity|].
  destruct (deleteTeam_memberships exampleStore 100 101 1 exampleCreator
              eq_refl) as (u' & Hu' & _ & _ & Hlen & _).
  exists u'. split; [exact Hu'|]. rewrite Hlen. reflexivity.
Defined.


Lemma deleteTeam_no_team_left s id teamId o :
  Organization (fst (deleteTeam id teamId s)) !! id = Some o →
  ¬ hasTeam teamId o.
Proof.
  rewrite deleteTeam_users. simpl. unfold Organization_findOneAndUpdate.
  destruct (Organization s !! id) as [o0|] eqn:Ho; [|simpl; by rewrite Ho].
  case_decide as Hteam; simpl.
  - rewrite lookup_insert_eq. intros [= <-]. unfold hasTeam. simpl.
    intros (t & Hid & Ht)%list_elem_of_fmap.
    apply list_elem_of_filter in Ht as [Hne _]. done.
  - rewrite Ho. by intros [= <-].
Qed.


(** X9: [deleteTeam] of a team that the organization does not have (or of
    an unknown organization) writes no organization document, and still
    runs its cascade: afterwards no entry of any user for the organization
    lists the id, so a stale reference is cleaned up. *)
Theorem deleteTeam_unknown_team s id teamId :
  ¬ teamExists s id teamId →
  ∃ s',
    deleteTeam id teamId s = (s', Ok ())
    ∧ Organization s' = Organization s
    ∧ ∀ userId u' m', User s' !! userId = Some u' →
        m' ∈ organizationMemberships u' → organizationId m' = id →
        teamId ∉ membership_teams m'.
Proof.
  intros Hno. eexists. split; [apply deleteTeam_users|].
  rewrite (findOneAndUpdate_miss id (hasTeam teamId) _ false s); cycle 1.
  { intros o Ho Hteam. apply Hno. by exists o. }
  simpl. split; [done|].
  intros userId u' m'. rewrite lookup_fmap.
  destruct (User s !! userId) as [u|]; [|done]. simpl. intros [= <-].
  case_decide as Hmem.
  - apply pulled_memberships_spec.
  - intros Hm' Hid. exfalso. apply Hmem. unfold hasMembership.
    rewrite <- Hid. by apply list_elem_of_fmap_2.
Qed.

Lemma deleteTeam_unknown_team_witness :
  (¬ teamExists duplicateTeamsStore 7 101)
  ∧ ∃ s', deleteTeam 7 101 duplicateTeamsStore = (s', Ok ())
          ∧ Organization s' = Organization duplicateTeamsStore.
Proof.
  assert (¬ teamExists duplicateTeamsStore 7 101) as Hno.
  { intros (o & Ho & _). vm_compute in Ho. discriminate. }
  split; [exact Hno|].
  destruct (deleteTeam_unknown_team duplicateTeamsStore 7 101 Hno)
    as (s' & Hrun & Horg & _).
  by exists s'.
Defined.

(** ** Team update, further *)

Lemma updateTeam_not_found_run s id teamId team :
  (∀ o, Organization s !! id = Some o → ¬ hasTeam teamId o) →
  updateTeam id teamId team s = (s, Ok None).
Proof. intros Hmiss. unfold updateTeam. by apply findOneAndUpdate_miss. Qed.


Lemma positional_idempotent {A : Type} (P : A → Prop) `{∀ x, Decision (P x)}
    (f : A → A) (l : list A) :
  (∀ x, P x → P (f x)) → (∀ x, f (f x) = f x) →
  positional P f (positional P f l) = positional P f l.
Proof.
  intros HP Hf. induction l as [|x l IH]; [done|].
  cbn [positional]. destruct (decide (P x)) as [Hx|Hx]; cbn [positional].
  - by rewrite decide_True, Hf by by apply HP.
  - by rewrite decide_False, IH.
Qed.

Lemma positional_Forall2 {A : Type} (R : A → A → Prop)
    (P : A → Prop) `{∀ x, Decision (P x)} (f : A → A) (l : list A) :
  (∀ x, R x x) → (∀ x, R x (f x)) → Forall2 R l (positional P f l).
Proof.
  intros Hrefl Hf. induction l as [|x l IH]; [constructor|].
  cbn [positional]. destruct (decide (P x)).
  - constructor; [done|]. apply Forall_Forall2_diag, Forall_forall. auto.
  - by constructor.
Qed.

Lemma setTeamFields_idempotent fieldSet t :
  setTeamFields fieldSet (setTeamFields fieldSet t) = setTeamFields fieldSet t.
Proof.
  unfold setTeamFields. simpl.
  destruct (fieldSet !! "teams.$.name" ≫= castString),
           (fieldSet !! "teams.$.logoPath" ≫= castString); done.
Qed.

(** X10: [updateTeam] is idempotent: running the same update again gives
    the same result and the same store as running it once (at one reading
    of the clock), for a known and for an unknown team alike. *)
Theorem updateTeam_idempotent s id teamId team :
  updateTeam id teamId team (fst (updateTeam id teamId team s))
  = updateTeam id teamId team s.
Proof.
  destruct (Organization s !! id) as [o|] eqn:Ho; cycle 1.
  { rewrite (updateTeam_not_found_run s) by (intros ? ?; congruence).
    simpl. by rewrite (updateTeam_not_found_run s) by (intros ? ?; congruence). }
  destruct (decide (hasTeam teamId o)) as [Hteam|Hteam]; cycle 1.
  { assert (updateTeam id teamId team s = (s, Ok None)) as Hrun.
    { apply updateTeam_not_found_run. intros ? ?. congruence. }
    by rewrite Hrun. }
  set (P := λ t : ITeamDoc, team_id t = teamId).
  set (f := setTeamFields (newTeamFieldSet team)).
  set (o1 := touch (now s) (withTeams (positional P f) o)).
  assert (updateTeam id teamId team s
          = (setOrganization (<[id := o1]> (Organization s)) s,
             Ok (Some (mkOrganizationDoc id o1)))) as Hrun.
  { unfold updateTeam. by rewrite (findOneAndUpdate_hit id _ _ true s o Ho Hteam). }
  rewrite Hrun. cbn [fst]. unfold updateTeam.
  rewrite (findOneAndUpdate_hit id _ _ true _ o1); cycle 1.
  { apply lookup_insert_eq. }
  { unfold hasTeam, o1. simpl. by rewrite positional_fmap. }
  assert (touch (now s) (withTeams (positional P f) o1) = o1) as Hfix.
  { unfold o1, touch, withTeams. simpl. f_equal.
    apply positional_idempotent; [done|]. apply setTeamFields_idempotent. }
  cbn [now setOrganization]. fold P f. rewrite Hfix.
  unfold setOrganization. cbn [Organization User nextObjectId now].
  by rewrite insert_insert_eq.
Qed.

(** X11: what [updateTeam] can never do.  Whatever the input, on every
    team of the organization the id and the access-control list stay, a
    team that has a [logoPath] still has one (a logo can be replaced, not
    removed), and a non-empty name stays non-empty unless the input binds
    [name] to an object; the number and order of the teams stay. *)
Theorem updateTeam_never_unsets s id teamId team o :
  Organization s !! id = Some o →
  ∃ o',
    Organization (fst (updateTeam id teamId team s)) !! id = Some o'
    ∧ Forall2
        (λ t t',
           team_id t' = team_id t
           ∧ team_accessControlList t' = team_accessControlList t
           ∧ (is_Some (team_logoPath t) → is_Some (team_logoPath t'))
           ∧ ((∀ str, jsGet team "name" ≠ JObject str) →
              team_name t ≠ "" → team_name t' ≠ ""))
        (teams o) (teams o').
Proof.
  intros Ho. destruct (decide (hasTeam teamId o)) as [Hteam|Hteam]; cycle 1.
  { rewrite updateTeam_not_found_run by (intros ? ?; congruence).
    exists o. split; [done|]. apply Forall_Forall2_diag, Forall_forall.
    intros t _. by split_and!. }
  unfold updateTeam. rewrite (findOneAndUpdate_hit id _ _ true s o Ho Hteam).
  eexists. split; [apply lookup_insert_eq|]. simpl.
  apply positional_Forall2; [by intros t; split_and!|].
  intros t. rewrite setTeamFields_newTeamFieldSet. simpl.
  split_and!; try done.
  - intros Hlogo. destruct (truthy (jsGet team "logoPath")) eqn:Hl; [|done].
    by apply truthy_castString.
  - intros Hobj Hname.
    destruct (jsGet team "name") as [| |[]|str|str] eqn:Hv; simpl; try done.
    + destruct (String.eqb_spec str ""); simpl; [done|done].
    + by destruct (Hobj str).
Qed.

Lemma updateTeam_never_unsets_witness :
  Organization exampleStore !! 100%N = Some exampleOrganization
  ∧ ∃ o', Organization
            (fst (updateTeam 100 101
                    {[ "name" := JString ""; "logoPath" := JNull ]}
                    exampleStore)) !! 100%N = Some o'
          ∧ length (teams o') = 1%nat.
Proof.
  split; [reflexivity|].
  destruct (updateTeam_never_unsets exampleStore 100 101
              {[ "name" := JString ""; "logoPath" := JNull ]}
              exampleOrganization eq_refl) as (o' & Ho' & Hall).
  exists o'. split; [exact Ho'|].
  apply Forall2_length in Hall. by rewrite <- Hall.
Defined.

(** ** Team creation, further *)

Lemma requiredString_None v :
  requiredString v = None ↔ v ∈ [JUndefined; JNull; JString ""; JObject ""].
Proof.
  rewrite !elem_of_cons, elem_of_nil. unfold requiredString. split.
  - destruct v as [| |[]|str|str]; simpl; try done; try tauto;
      destruct (String.eqb_spec str ""); try done; subst; tauto.
  - intros [->|[->|[->|[->|[]]]]]; done.
Qed.

(** The three runs of [createTeam]. *)
Lemma createTeam_runs s id team creatorId :
  let s0 := {| Organization := Organization s; User := User s;
               nextObjectId := N.succ (nextObjectId s); now := now s |} in
  match requiredString (jsGet team "name"), Organization s !! id with
  | None, _ => createTeam id team creatorId s = (s0, Throw ValidationError)
  | Some _, None => createTeam id team creatorId s = (s0, Throw NotFound)
  | Some _, Some _ =>
      ∃ o', createTeam id team creatorId s
            = (setOrganization (<[id := o']> (Organization s)) s0,
               Ok (mkOrganizationDoc id o'))
            ∧ nextObjectId s ∈ (team_id <$> teams o')
  end.
Proof.
  intros s0. unfold createTeam, castTeam.
  destruct (requiredString (jsGet team "name")) as [name|] eqn:Hname; [|done].
  destruct (Organization s !! id) as [o|] eqn:Ho.
  - erewrite bind_Ok; [|reflexivity].
    erewrite bind_Ok; [|reflexivity].
    erewrite bind_Ok; cycle 1.
    { apply (findOneAndUpdate_hit id _ _ true s0 o); [exact Ho|done]. }
    cbn [org_id]. unfold setNestedUserRole, setRole.
    erewrite bind_Ok; cycle 1.
    { apply findOneAndUpdate_hit; [apply lookup_insert_eq|].
      simpl. apply list_elem_of_fmap. eexists.
      split; [|apply elem_of_addToSet]. done. }
    eexists. split.
    { unfold mret, M_ret, setOrganization.
      cbn [Organization User nextObjectId now]. by rewrite insert_insert_eq. }
    simpl. rewrite positional_fmap by done.
    apply list_elem_of_fmap. eexists.
    split; [|apply elem_of_addToSet]. done.
  - erewrite bind_Ok; [|reflexivity].
    erewrite bind_Ok; [|reflexivity].
    erewrite bind_Ok; cycle 1.
    { apply (findOneAndUpdate_miss id _ _ true s0). simpl. congruence. }
    done.
Qed.

(** X12: the outcomes of [createTeam], for every input and store.  It
    raises [ValidationError] exactly when [name] is missing, [undefined],
    [null] or empty, whether or not the organization exists; it raises
    [NotFound] exactly when the name is valid and the organization is
    unknown; otherwise it returns the stored organization, which holds a
    team with the generated id.  A failed call writes no document, no call
    writes a user, and every call uses up one generated id. *)
Theorem createTeam_outcome s id team creatorId :
  let r := createTeam id team creatorId s in
  (snd r = Throw ValidationError
   ↔ jsGet team "name" ∈ [JUndefined; JNull; JString ""; JObject ""])
  ∧ (snd r = Throw NotFound
     ↔ (jsGet team "name" ∉ [JUndefined; JNull; JString ""; JObject ""])
       ∧ Organization s !! id = None)
  ∧ (jsGet team "name" ∉ [JUndefined; JNull; JString ""; JObject ""] →
     is_Some (Organization s !! id) →
     ∃ org, snd r = Ok org ∧ org_id org = id
            ∧ Organization (fst r) !! id = Some (org_fields org)
            ∧ nextObjectId s ∈ (team_id <$> teams org))
  ∧ ((∀ org, snd r ≠ Ok org) → Organization (fst r) = Organization s)
  ∧ User (fst r) = User s
  ∧ nextObjectId (fst r) = N.succ (nextObjectId s).
Proof.
  intros r. subst r. pose proof (createTeam_runs s id team creatorId) as Hrun.
  simpl in Hrun. rewrite <- !requiredString_None.
  destruct (requiredString (jsGet team "name")) as [name|] eqn:Hname.
  - destruct (Organization s !! id) as [o|] eqn:Ho.
    + destruct Hrun as (o' & -> & Hnew). simpl.
      split; [done|]. split; [split; [done|by intros [_ ?]]|].
      split.
      { intros _ _. eexists. split_and!; try done. apply lookup_insert_eq. }
      split; [|done].
      intros Hno. by destruct (Hno (mkOrganizationDoc id o')).
    + rewrite Hrun. simpl.
      split; [done|]. split; [done|]. split; [|done].
      intros _ [? ?]. done.
  - rewrite Hrun. simpl.
    split; [done|]. split; [split; [done|by intros [? _]]|].
    split; [|done]. intros Hvalid. by destruct Hvalid.
Qed.

Lemma teamIdsGenerated_fresh s id o :
  teamIdsGenerated s id → Organization s !! id = Some o →
  nextObjectId s ∉ (team_id <$> teams o).
Proof.
  intros Hgen Ho (t & Hid & Ht)%list_elem_of_fmap.
  specialize (Hgen o t Ho Ht). lia.
Qed.

(** X13: on a store whose team ids were all handed out by the id
    generator and are distinct, [createTeam] with a valid name on an
    existing organization succeeds; the new team then exists under the
    organization next to every earlier one, the team ids are still
    distinct and generated (so the next [createTeam] gets a new id again),
    and membership references that were valid stay valid. *)
Theorem createTeam_adds_team s id team creatorId name o :
  requiredString (jsGet team "name") = Some name →
  Organization s !! id = Some o →
  teamIdsGenerated s id → teamsUnique s id →
  ∃ s' org,
    createTeam id team creatorId s = (s', Ok org)
    ∧ teamExists s' id (nextObjectId s)
    ∧ (∀ t, teamExists s id t → teamExists s' id t)
    ∧ teamsUnique s' id
    ∧ teamIdsGenerated s' id
    ∧ (noDanglingTeams s id → noDanglingTeams s' id).
Proof.
  intros Hname Ho Hgen Huniq.
  pose proof (teamIdsGenerated_fresh s id o Hgen Ho) as Hfresh.
  pose proof (createTeam_existing s id team creatorId name o Hname Ho Hfresh)
    as Hrun. cbv zeta in Hrun.
  eexists _, _. split; [exact Hrun|].
  assert (∀ t, teamExists s id t →
               teamExists
                 {| Organization :=
                      <[id := {| org_name := org_name o;
                                 createdAt := createdAt o;
                                 updatedAt := now s;
                                 accessControlList := accessControlList o;
                                 teams :=
                                   teams o
                                   ++ [ {| team_id := nextObjectId s;
                                           team_name := name;
                                           team_logoPath :=
                                             castString (jsGet team "logoPath");
                                           team_accessControlList :=
                                             [mkACE creatorId TEAM_ADMIN] |} ];
                                 projectGroups := projectGroups o |}]>
                        (Organization s);
                    User := User s;
                    nextObjectId := N.succ (nextObjectId s);
                    now := now s |} id t) as Hkept.
  { intros t (o0 & Ho0 & Ht). rewrite Ho in Ho0. injection Ho0 as <-.
    eexists. split; [apply lookup_insert_eq|]. simpl.
    rewrite fmap_app. apply elem_of_app. by left. }
  split_and!.
  - eexists. split; [apply lookup_insert_eq|]. simpl.
    rewrite fmap_app. apply elem_of_app. right. left.
  - exact Hkept.
  - intros o'. simpl. rewrite lookup_insert_eq. intros [= <-]. simpl.
    rewrite fmap_app. apply NoDup_app. split_and!.
    + by apply Huniq.
    + intros x Hx ->%list_elem_of_singleton. done.
    + apply NoDup_singleton.
  - intros o' t. simpl. rewrite lookup_insert_eq. intros [= <-]. simpl.
    intros [Ht| ->%list_elem_of_singleton]%elem_of_app.
    + specialize (Hgen o t Ho Ht). lia.
    + simpl. lia.
  - intros Hvalid userId u m t Hu Hm Hid Ht. apply Hkept.
    by apply (Hvalid userId u m t).
Qed.

Lemma createTeam_adds_team_witness :
  (requiredString (jsGet {[ "name" := JString "team2" ]} "name") = Some "team2"
   ∧ Organization exampleStore !! 100%N = Some exampleOrganization
   ∧ teamIdsGenerated exampleStore 100 ∧ teamsUnique exampleStore 100)
  ∧ ∃ s' org,
      createTeam 100 {[ "name" := JString "team2" ]} 3 exampleStore = (s', Ok org)
      ∧ teamExists s' 100 102 ∧ teamExists s' 100 101.
Proof.
  assert (requiredString (jsGet {[ "name" := JString "team2" ]} "name")
          = Some "team2") as Hname by reflexivity.
  assert (teamIdsGenerated exampleStore 100) as Hgen.
  { intros o t Ho Ht. vm_compute in Ho. injection Ho as <-. simpl in Ht.
    apply list_elem_of_singleton in Ht as ->. simpl. lia. }
  assert (teamsUnique exampleStore 100) as Huniq.
  { intros o Ho. vm_compute in Ho. injection Ho as <-.
    simpl. apply NoDup_singleton. }
  split; [by split_and!|].
  destruct (createTeam_adds_team exampleStore 100
              {[ "name" := JString "team2" ]} 3 "team2" exampleOrganization
              Hname eq_refl Hgen Huniq)
    as (s' & org & Hrun & Hnew & Hkept & _).
  exists s', org. split_and!; [exact Hrun|exact Hnew|].
  apply Hkept. exists exampleOrganization. split; [reflexivity|]. simpl. left.
Defined.

(** X14: creating a team and deleting it again.  On a store whose team
    ids are generated and whose membership references are valid,
    [createTeam] with a valid name followed by [deleteTeam] of the new id
    gives back the organization with its earlier teams and fields (only
    [updatedAt] is stamped) and the users as they were. *)
Theorem createTeam_deleteTeam s id team creatorId name o :
  requiredString (jsGet team "name") = Some name →
  Organization s !! id = Some o →
  teamIdsGenerated s id → noDanglingTeams s id →
  ∃ s1 org s2,
    createTeam id team creatorId s = (s1, Ok org)
    ∧ deleteTeam id (nextObjectId s) s1 = (s2, Ok ())
    ∧ Organization s2 = <[id := touch (now s) o]> (Organization s)
    ∧ User s2 = User s.
Proof.
  intros Hname Ho Hgen Hvalid.
  pose proof (teamIdsGenerated_fresh s id o Hgen Ho) as Hfresh.
  pose proof (createTeam_existing s id team creatorId name o Hname Ho Hfresh)
    as Hrun. cbv zeta in Hrun.
  eexists _, _, _. split; [exact Hrun|].
  split; [apply deleteTeam_users|].
  set (newTeam := {| team_id := nextObjectId s; team_name := name;
                     team_logoPath := castString (jsGet team "logoPath");
                     team_accessControlList := [mkACE creatorId TEAM_ADMIN] |}).
  assert (pull (λ t, team_id t = nextObjectId s) (teams o ++ [newTeam])
          = teams o) as Hpull.
  { unfold pull. rewrite filter_app, filter_cons_False by (simpl; tauto).
    rewrite filter_nil, app_nil_r.
    apply (pull_absent (λ t, team_id t = nextObjectId s)), Forall_forall.
    intros t Ht Hid. apply Hfresh. rewrite <- Hid.
    by apply list_elem_of_fmap_2. }
  split.
  - rewrite (findOneAndUpdate_hit id (hasTeam (nextObjectId s)) _ false _ _
               (lookup_insert_eq _ _ _)); cycle 1.
    { unfold hasTeam. simpl. rewrite fmap_app. apply elem_of_app. right. left. }
    simpl. rewrite insert_insert_eq. f_equal.
    unfold touch, withTeams. simpl. fold newTeam. by rewrite Hpull.
  - simpl.
    apply map_eq. intros userId. rewrite lookup_fmap.
    destruct (User s !! userId) as [u|] eqn:Hu; [|done]. simpl. f_equal.
    case_decide as Hmem; [|done].
    destruct u as [dn em ms]. unfold withMemberships. simpl. f_equal.
    apply filteredPositional_fixed. intros m Hm Hid.
    destruct m as [oid ts]. unfold withMembershipTeams. simpl. f_equal.
    apply (pull_absent (λ x, x = nextObjectId s)), Forall_forall.
    intros x Hx ->.
    destruct (Hvalid userId _ _ (nextObjectId s) Hu Hm Hid Hx)
      as (o0 & Ho0 & Hin).
    rewrite Ho in Ho0. injection Ho0 as <-. done.
Qed.

Lemma createTeam_deleteTeam_witness :
  (requiredString (jsGet {[ "name" := JString "team2" ]} "name") = Some "team2"
   ∧ Organization exampleStore !! 100%N = Some exampleOrganization
   ∧ teamIdsGenerated exampleStore 100 ∧ noDanglingTeams exampleStore 100)
  ∧ ∃ s1 org s2,
      createTeam 100 {[ "name" := JString "team2" ]} 3 exampleStore = (s1, Ok org)
      ∧ deleteTeam 100 102 s1 = (s2, Ok ())
      ∧ User s2 = User exampleStore.
Proof.
  assert (requiredString (jsGet {[ "name" := JString "team2" ]} "name")
          = Some "team2") as Hname by reflexivity.
  assert (teamIdsGenerated exampleStore 100) as Hgen.
  { intros o t Ho Ht. vm_compute in Ho. injection Ho as <-. simpl in Ht.
    apply list_elem_of_singleton in Ht as ->. simpl. lia. }
  assert (noDanglingTeams exampleStore 100) as Hvalid.
  { assert (map_Forall
              (λ _ u, Forall (λ m, Forall (λ t, t = 101%N) (membership_teams m))
                        (organizationMemberships u))
              (User exampleStore)) as Hall
      by (refine (bool_decide_unpack _ _); vm_compute; exact I).
    intros userId u m t Hu Hm _ Ht.
    pose proof (Hall userId u Hu) as Hu'. simpl in Hu'.
    rewrite Forall_forall in Hu'. specialize (Hu' m Hm).
    rewrite Forall_forall in Hu'. rewrite (Hu' t Ht).
    exists exampleOrganization. split; [reflexivity|]. simpl. left. }
  split; [by split_and!|].
  destruct (createTeam_deleteTeam exampleStore 100
              {[ "name" := JString "team2" ]} 3 "team2" exampleOrganization
              Hname eq_refl Hgen Hvalid)
    as (s1 & org & s2 & Hcreate & Hdelete & _ & Husers).
  by exists s1, org, s2.
Defined.

Lemma updateTeam_teamIdsGenerated s id teamId team :
  teamIdsGenerated s id →
  teamIdsGenerated (fst (updateTeam id teamId team s)) id.
Proof.
  intros Hgen. unfold updateTeam, Organization_findOneAndUpdate.
  destruct (Organization s !! id) as [o|] eqn:Ho; [|done].
  case_decide; [|done].
  intros o' t'. simpl. rewrite lookup_insert_eq. intros [= <-]. simpl.
  intros Ht'.
  assert (team_id t' ∈ (team_id <$> teams o)) as Hin.
  { rewrite <- (positional_fmap team_id (λ t, team_id t = teamId)
                  (setTeamFields (newTeamFieldSet team))) by done.
    by apply list_elem_of_fmap_2. }
  apply list_elem_of_fmap in Hin as (t & -> & Ht). by apply (Hgen o t).
Qed.

Lemma deleteTeam_teamIdsGenerated s id teamId :
  teamIdsGenerated s id →
  teamIdsGenerated (fst (deleteTeam id teamId s)) id.
Proof.
  intros Hgen. rewrite deleteTeam_users. simpl.
  unfold Organization_findOneAndUpdate.
  destruct (Organization s !! id) as [o|] eqn:Ho; [|done].
  case_decide; [|done].
  intros o' t'. simpl. rewrite lookup_insert_eq. intros [= <-]. simpl.
  unfold pull. intros [_ Ht']%list_elem_of_filter. by apply (Hgen o t').
Qed.

(** X15: [updateTeam] and [deleteTeam], whatever their outcome, keep the
    team ids of the organization distinct and keep them among the ids the
    generator has handed out: neither can introduce or duplicate a team
    id. *)
Theorem team_writes_keep_ids s id teamId team :
  teamsUnique s id → teamIdsGenerated s id →
  (teamsUnique (fst (updateTeam id teamId team s)) id
   ∧ teamIdsGenerated (fst (updateTeam id teamId team s)) id)
  ∧ (teamsUnique (fst (deleteTeam id teamId s)) id
     ∧ teamIdsGenerated (fst (deleteTeam id teamId s)) id).
Proof.
  intros Huniq Hgen. split_and!.
  - by apply updateTeam_teamsUnique.
  - by apply updateTeam_teamIdsGenerated.
  - by apply deleteTeam_teamsUnique.
  - by apply deleteTeam_teamIdsGenerated.
Qed.

Lemma team_writes_keep_ids_witness :
  (teamsUnique exampleStore 100 ∧ teamIdsGenerated exampleStore 100)
  ∧ teamsUnique (fst (deleteTeam 100 101 exampleStore)) 100.
Proof.
  assert (teamIdsGenerated exampleStore 100) as Hgen.
  { intros o t Ho Ht. vm_compute in Ho. injection Ho as <-. simpl in Ht.
    apply list_elem_of_singleton in Ht as ->. simpl. lia. }
  assert (teamsUnique exampleStore 100) as Huniq.
  { intros o Ho. vm_compute in Ho. injection Ho as <-.
    simpl. apply NoDup_singleton. }
  split; [by split|].
  exact (proj1 (proj2 (team_writes_keep_ids exampleStore 100 101 ∅ Huniq Hgen))).
Defined.

(** * Properties the tests of the organization model show *)

(** ** Membership and authorization *)

Lemma findMembership_Some orgId (user : IUserDoc) :
  orgId ∈ (organizationId <$> organizationMemberships user) →
  ∃ m, findMembership orgId user = Some m ∧ organizationId m = orgId.
Proof.
  intros (m & Hid & Hm)%list_elem_of_fmap. unfold findMembership.
  destruct (filter _ _) as [|m0 l] eqn:Hf.
  - exfalso. eapply (filter_nil_not_elem_of _ _ m Hf); [by symmetry|done].
  - exists m0. split; [done|].
    assert (m0 ∈ filter (λ m, organizationId m = orgId)
                   (organizationMemberships user)) as Hm0 by (rewrite Hf; left).
    by apply list_elem_of_filter in Hm0 as [? _].
Qed.

Lemma isAuthorized_member s orgId (user : IUserDoc) :
  orgId ∈ (organizationId <$> organizationMemberships user) →
  isAuthorized s orgId None user = true.
Proof.
  intros (m & Hm & _)%findMembership_Some. unfold isAuthorized. by rewrite Hm.
Qed.

(** X17: a role set on the user.  For a member of an existing
    organization, [setUserRole] succeeds and the user is then authorized
    for the role; [removeUserRole] succeeds, leaves no entry of the user on
    the organization's list, and the user is not authorized for the role
    afterwards if the user was not before the role was set. *)
Theorem user_role_propagation s id r (user : IUserDoc) o :
  Organization s !! id = Some o →
  id ∈ (organizationId <$> organizationMemberships user) →
  ∃ s1 org s2 o2,
    setUserRole id r (user_id user) s = (s1, Ok org)
    ∧ isAuthorized s1 id (Some [r]) user = true
    ∧ removeUserRole id (user_id user) s1 = (s2, Ok ())
    ∧ Organization s2 !! id = Some o2
    ∧ (user_id user ∉ (userId <$> accessControlList o2))
    ∧ (isAuthorized s id (Some [r]) user = false →
       isAuthorized s2 id (Some [r]) user = false).
Proof.
  intros Ho (m & Hm & _)%findMembership_Some.
  set (o1 := touch (now s) (withAccessControlList
                              (upsertACE (user_id user) r) o)).
  set (s1 := setOrganization (<[id := o1]> (Organization s)) s).
  set (o2 := touch (now s1) (withAccessControlList
                               (removeACE (user_id user)) o1)).
  set (s2 := setOrganization (<[id := o2]> (Organization s1)) s1).
  assert (Organization s1 !! id = Some o1) as Ho1 by apply lookup_insert_eq.
  assert (Organization s2 !! id = Some o2) as Ho2 by apply lookup_insert_eq.
  assert (accessControlList o2
          = filter (λ a, userId a ≠ user_id user) (accessControlList o))
    as Hacl by apply removeACE_upsertACE.
  exists s1, (mkOrganizationDoc id o1), s2, o2. split_and!.
  - unfold setUserRole, setRole. erewrite bind_Ok; cycle 1.
    { by apply findOneAndUpdate_hit. }
    reflexivity.
  - apply (isAuthorized_roles _ _ _ _ m Hm).
    apply (elem_of_effectiveRoles _ _ _ _ o1 _ Ho1). left.
    exists (mkACE (user_id user) r). split; [|done].
    simpl. unfold upsertACE. apply elem_of_app. right. left.
  - unfold removeUserRole, removeRole. erewrite bind_Ok; cycle 1.
    { by apply findOneAndUpdate_hit. }
    reflexivity.
  - exact Ho2.
  - rewrite Hacl. intros (a & Hid & Ha)%list_elem_of_fmap.
    apply list_elem_of_filter in Ha as [Hne _]. done.
  - intros Hbefore. apply not_true_is_false. intros Hafter.
    apply not_true_iff_false in Hbefore. apply Hbefore.
    apply (isAuthorized_roles _ _ _ _ m Hm).
    apply (isAuthorized_roles _ _ _ _ m Hm) in Hafter.
    apply (elem_of_effectiveRoles _ _ _ _ o _ Ho).
    apply (elem_of_effectiveRoles _ _ _ _ o2 _ Ho2) in Hafter.
    destruct Hafter as [(a & Ha & Hid & Hr)|Hteam]; [|by right].
    rewrite Hacl in Ha. apply list_elem_of_filter in Ha as [Hne _]. done.
Qed.

Lemma user_role_propagation_witness :
  (Organization exampleStore !! 100%N = Some exampleOrganization
   ∧ 100%N ∈ (organizationId <$> organizationMemberships exampleMember))
  ∧ ∃ s1 org s2,
      setUserRole 100 ORG_ADMIN 3 exampleStore = (s1, Ok org)
      ∧ isAuthorized s1 100 (Some [ORG_ADMIN]) (mkUserDoc 3 exampleMember) = true
      ∧ removeUserRole 100 3 s1 = (s2, Ok ())
      ∧ isAuthorized s2 100 (Some [ORG_ADMIN]) (mkUserDoc 3 exampleMember)
        = false.
Proof.
  assert (100%N ∈ (organizationId <$> organizationMemberships exampleMember))
    as Hmem by (simpl; left).
  split; [by split|].
  destruct (user_role_propagation exampleStore 100 ORG_ADMIN
              (mkUserDoc 3 exampleMember) exampleOrganization eq_refl Hmem)
    as (s1 & org & s2 & o2 & Hset & Hyes & Hremove & _ & _ & Hno).
  exists s1, org, s2. split_and!; try done.
  apply Hno. vm_compute. reflexivity.
Defined.

(** ** Adding a user to an organization *)

Lemma addUser_runs s id userId :
  match Organization s !! id, User s !! userId with
  | Some _, Some u =>
      addUser id userId s
      = (setUser (<[userId :=
                     withMemberships
                       (λ ms, if decide (id ∈ (organizationId <$> ms)) then ms
                              else ms ++ [mkMembership id []]) u]> (User s)) s,
         Ok ())
  | _, _ => addUser id userId s = (s, Throw NotFound)
  end.
Proof.
  unfold addUser, mbind, M_bind, Organization_findOne, User_findOneAndUpdate.
  destruct (Organization s !! id) as [o|]; simpl; [|done].
  destruct (User s !! userId) as [u|]; by simpl.
Qed.

(** X18: [addUser] raises [NotFound] exactly for an unknown organization
    or an unknown user, and then writes nothing.  Otherwise it succeeds:
    the user has a membership entry for the organization afterwards, the
    document is unchanged if there was one already and gets one entry with
    no teams appended if not, the user is then authorized with no role
    filter, and adding again changes nothing. *)
Theorem addUser_spec s id userId :
  (snd (addUser id userId s) = Throw NotFound
   ↔ Organization s !! id = None ∨ User s !! userId = None)
  ∧ (snd (addUser id userId s) = Throw NotFound → fst (addUser id userId s) = s)
  ∧ (∀ o u, Organization s !! id = Some o → User s !! userId = Some u →
       ∃ u',
         addUser id userId s = (setUser (<[userId := u']> (User s)) s, Ok ())
         ∧ (id ∈ (organizationId <$> organizationMemberships u) → u' = u)
         ∧ (id ∉ (organizationId <$> organizationMemberships u) →
            organizationMemberships u'
            = organizationMemberships u ++ [mkMembership id []])
         ∧ isAuthorized (setUser (<[userId := u']> (User s)) s) id None
             (mkUserDoc userId u') = true
         ∧ addUser id userId (setUser (<[userId := u']> (User s)) s)
           = (setUser (<[userId := u']> (User s)) s, Ok ())).
Proof.
  pose proof (addUser_runs s id userId) as Hrun.
  destruct (Organization s !! id) as [o|] eqn:Ho; cycle 1.
  { rewrite Hrun. simpl. split_and!; try done. split; [by left|done]. }
  destruct (User s !! userId) as [u|] eqn:Hu; cycle 1.
  { rewrite Hrun. simpl. split_and!; try done. split; [by right|done]. }
  rewrite Hrun. simpl. split_and!.
  - split; [done|]. by intros [?|?].
  - done.
  - intros ? ? [= <-] [= <-].
    set (u' := withMemberships
                 (λ ms, if decide (id ∈ (organizationId <$> ms)) then ms
                        else ms ++ [mkMembership id []]) u).
    assert (id ∈ (organizationId <$> organizationMemberships u')) as Hmem'.
    { unfold u'. simpl. case_decide; [done|].
      rewrite fmap_app. apply elem_of_app. right. left. }
    exists u'. split_and!; try done.
    + intros Hmem. unfold u', withMemberships. rewrite decide_True by done.
      by destruct u.
    + intros Hmem. unfold u'. simpl. by rewrite decide_False.
    + by apply isAuthorized_member.
    + pose proof (addUser_runs (setUser (<[userId := u']> (User s)) s)
                    id userId) as Hagain.
      simpl in Hagain. rewrite Ho, lookup_insert_eq in Hagain.
      rewrite Hagain. f_equal.
      assert (withMemberships
                (λ ms, if decide (id ∈ (organizationId <$> ms)) then ms
                       else ms ++ [mkMembership id []]) u' = u') as ->.
      { unfold withMemberships at 1. rewrite decide_True by done.
        by destruct u'. }
      apply setUser_same. apply lookup_insert_eq.
Qed.

(** ** Creating an organization *)

Lemma createOrganization_success attrs creatorId s s' org :
  createOrganization attrs creatorId s = (s', Ok org) →
  ∃ u,
    User s !! creatorId = Some u
    ∧ Organization s' !! org_id org = Some (org_fields org)
    ∧ accessControlList org = [mkACE creatorId ORG_FULL_ADMIN]
    ∧ User s'
      = <[creatorId :=
            withMemberships
              (λ ms, if decide (org_id org ∈ (organizationId <$> ms)) then ms
                     else ms ++ [mkMembership (org_id org) []]) u]> (User s).
Proof.
  unfold createOrganization.
  destruct (requiredString (jsGet attrs "name")) as [n|]; [|done].
  unfold mbind, M_bind, newObjectId, currentTime, Organization_insert. simpl.
  destruct (Organization s !! nextObjectId s) eqn:Hfree; [done|]. simpl.
  unfold grantOnCreate, setRole.
  erewrite bind_Ok; cycle 1.
  { apply findOneAndUpdate_hit; [simpl; apply lookup_insert_eq|done]. }
  simpl. unfold addUser, Organization_findOne, User_findOneAndUpdate.
  unfold mbind, M_bind, mret, M_ret. simpl.
  rewrite lookup_insert_eq. simpl.
  destruct (User s !! creatorId) as [u|] eqn:Hu; simpl; [|done].
  intros [= <- <-]. simpl. exists u. split_and!; try done.
  apply lookup_insert_eq.
Qed.

(** X20: the creator of an organization.  After a successful
    [createOrganization] the creator has a membership entry for the new
    organization, is authorized for it with no role filter and for
    [ORG_FULL_ADMIN], and [addUser] of the creator succeeds and changes
    nothing. *)
Theorem createOrganization_creator attrs creatorId s s' org :
  createOrganization attrs creatorId s = (s', Ok org) →
  ∃ u',
    User s' !! creatorId = Some u'
    ∧ org_id org ∈ (organizationId <$> organizationMemberships u')
    ∧ isAuthorized s' (org_id org) None (mkUserDoc creatorId u') = true
    ∧ isAuthorized s' (org_id org) (Some [ORG_FULL_ADMIN])
        (mkUserDoc creatorId u') = true
    ∧ addUser (org_id org) creatorId s' = (s', Ok ()).
Proof.
  intros (u & Hu & Horg & Hacl & Husers)%createOrganization_success.
  set (u' := withMemberships
               (λ ms, if decide (org_id org ∈ (organizationId <$> ms)) then ms
                      else ms ++ [mkMembership (org_id org) []]) u) in *.
  assert (User s' !! creatorId = Some u') as Hu'
    by (rewrite Husers; apply lookup_insert_eq).
  assert (org_id org ∈ (organizationId <$> organizationMemberships u'))
    as Hmem.
  { unfold u'. simpl. case_decide; [done|].
    rewrite fmap_app. apply elem_of_app. right. left. }
  exists u'. split_and!; try done.
  - by apply isAuthorized_member.
  - destruct (findMembership_Some (org_id org) (mkUserDoc creatorId u') Hmem)
      as (m & Hm & _).
    apply (isAuthorized_roles _ _ _ _ m Hm).
    apply (elem_of_effectiveRoles _ _ _ _ _ _ Horg). left.
    exists (mkACE creatorId ORG_FULL_ADMIN). split; [|done].
    rewrite Hacl. left.
  - pose proof (addUser_runs s' (org_id org) creatorId) as Hagain.
    rewrite Horg, Hu' in Hagain. rewrite Hagain. f_equal.
    assert (withMemberships
              (λ ms, if decide (org_id org ∈ (organizationId <$> ms)) then ms
                     else ms ++ [mkMembership (org_id org) []]) u' = u') as ->.
    { unfold withMemberships at 1. rewrite decide_True by done.
      by destruct u'. }
    by apply setUser_same.
Qed.

Lemma createOrganization_creator_witness :
  ∃ s' org u',
    createOrganization {[ "name" := JString "org1" ]} 1 emptyStore = (s', Ok org)
    ∧ User s' !! 1%N = Some u'
    ∧ isAuthorized s' (org_id org) None (mkUserDoc 1 u') = true.
Proof.
  assert (∃ s' org, createOrganization {[ "name" := JString "org1" ]} 1
                      emptyStore = (s', Ok org)) as (s' & org & Hrun).
  { eexists _, _. vm_compute. reflexivity. }
  destruct (createOrganization_creator _ _ _ _ _ Hrun)
    as (u' & Hu' & _ & Hauth & _).
  by exists s', org, u'.
Defined.

(** * A deleted team *)

(** X21: after [deleteTeam] the team can be neither joined nor left: for
    every user, [addUserToTeam] and [removeUserFromTeam] with the deleted
    id raise [NotFound] and write nothing. *)
Theorem deleteTeam_then_membership s id teamId userId :
  let s1 := fst (deleteTeam id teamId s) in
  addUserToTeam id teamId userId s1 = (s1, Throw NotFound)
  ∧ removeUserFromTeam id teamId userId s1 = (s1, Throw NotFound).
Proof.
  intros s1.
  assert (∀ o, Organization s1 !! id = Some o →
               length (filter (λ t, team_id t = teamId) (teams o)) ≠ 1%nat)
    as Hnone.
  { intros o Ho Hone. apply (deleteTeam_no_team_left s id teamId o Ho).
    by apply length_filter_one_elem_of. }
  rewrite addUserToTeam_shape, removeUserFromTeam_shape.
  split; by apply updateTeamMembership_not_one.
Qed.
